(** * A conservative mark-and-sweep collector: model of [gc.cpp]

    The development embeds the allocator/collector pair of [gc.cpp] and
    proves the properties its specification states about it.

    Platform: LP64 (x86-64).  [size_t] and pointers are 64 bits wide,
    [sizeof(ObjectHeader)] is 24 (a [bool] padded to 8 bytes, a [size_t]
    and a pointer) and words are read little-endian.

    Representation of the heap.  The source links all headers through
    their [next] field, starting at the global [heap_start].  Here the
    chain is the list of its nodes in link order: a node records the
    address at which its header lives, and the [next] field of a node is
    the address of the node that follows it in the list (null for the
    last one).  A pointer to a header is the position of its node in the
    chain.  The fields of the headers live in these nodes; every other
    byte of the address space (object data, the stack) lives in a byte
    memory, and that memory is what the scans of the mark phase read.
    A scan whose region is not a whole number of words reads its last
    word across the end of the region, from the same memory.  The
    source keeps the flag [marked] in the first byte of the header, so
    the nodes and the memory describe the same run as long as no
    scanned word overlaps a header; the theorems on what a scan marks
    assume it ([scans_clear], [data_scans_clear]), word-aligned headers
    guarantee it for Block data, and under it the mark phase with the
    flag written to memory marks the same Blocks (last section).

    Effects.  The recursion of [gc_mark_object] through
    [gc_mark_from_region] carries a bound on its depth and returns
    [None] when the bound is hit; the system allocator is a function of
    the history of calls made to it, and [malloc], [free] and the line
    that [gc_sweep] prints are recorded as events. *)

From Stdlib Require Import ZArith List Bool Lia Strings.Byte.
From stdpp Require Import base list.

Local Open Scope Z_scope.

(** ** Machine parameters *)

Definition SIZE_BITS : Z := 64.
Definition SIZE_MOD : Z := 2 ^ SIZE_BITS.

(** Unsigned machine arithmetic on [size_t] and on flat addresses. *)
Definition wrap (z : Z) : Z := z mod SIZE_MOD.

Definition sizeof_ObjectHeader : Z := 24.
Definition sizeof_ptr : Z := 8.

(** ** Data model *)

(** [struct ObjectHeader].  [addr] is the address of the header itself
    (the value of a pointer to it); [next] is given by the list order. *)
Record ObjectHeader : Type := mkHeader {
  addr : Z;
  marked : bool;
  size : Z
}.

(** The chain hanging off [heap_start]. *)
Abbreviation registry := (list ObjectHeader).

Definition set_marked (b : bool) (p : ObjectHeader) : ObjectHeader :=
  {| addr := addr p; marked := b; size := size p |}.

(** [(void* )(p + 1)] *)
Definition obj_start (p : ObjectHeader) : Z :=
  wrap (addr p + sizeof_ObjectHeader).

(** [(void* )((char* )obj_start + p->size)] *)
Definition obj_end (p : ObjectHeader) : Z :=
  wrap (obj_start p + size p).

(** The test of the scan in [get_header_from_data_ptr]:
    [ptr >= obj_start && ptr < obj_end]. *)
Definition contains (p : ObjectHeader) (ptr : Z) : bool :=
  (obj_start p <=? ptr) && (ptr <? obj_end p).

(** [get_header_from_data_ptr]: the first node of the chain whose data
    range contains [ptr]; [None] is the null result. *)
Fixpoint get_header_from_data_ptr (heap_start : registry) (ptr : Z)
  : option nat :=
  match heap_start with
  | [] => None
  | p :: next =>
      if contains p ptr then Some O
      else S <$> get_header_from_data_ptr next ptr
  end.

(** ** Memory *)

Definition memory : Type := Z -> byte.

Definition byte_at (m : memory) (a : Z) : Z := Z.of_N (Byte.to_N (m a)).

(** The pointer-sized word stored at [p] (the read [*p] of a [void**]). *)
Definition load_word (m : memory) (p : Z) : Z :=
  fold_right (fun i acc => byte_at m (p + i) + 256 * acc) 0
             [0; 1; 2; 3; 4; 5; 6; 7].

(** ** Mark phase *)

(** Number of iterations of [for (p = start; p < end; ++p)] over
    pointer-sized words. *)
Definition trip_count (start end_ : Z) : nat :=
  Z.to_nat ((end_ - start + (sizeof_ptr - 1)) / sizeof_ptr).

(** The loop of [gc_mark_from_region], over the marking function it
    calls on every word.  [n] bounds the iterations; the loop test is
    kept as written.  The cursor is not wrapped: it stays within one
    past the end of the scanned region. *)
Fixpoint gc_mark_from_region_loop
    (mark_object : Z -> registry -> option registry)
    (m : memory) (n : nat) (p end_ : Z) (h : registry) : option registry :=
  match n with
  | O => Some h
  | S n' =>
      if p <? end_ then
        match mark_object (load_word m p) h with
        | Some h' =>
            gc_mark_from_region_loop mark_object m n' (p + sizeof_ptr) end_ h'
        | None => None
        end
      else Some h
  end.

(** [gc_mark_object].  [fuel] bounds the depth of the recursion through
    [gc_mark_from_region]; [None] means the bound was hit. *)
Fixpoint gc_mark_object (fuel : nat) (m : memory) (ptr : Z) (h : registry)
  : option registry :=
  match fuel with
  | O => None
  | S fuel' =>
      if ptr =? 0 then Some h
      else
        match get_header_from_data_ptr h ptr with
        | None => Some h
        | Some i =>
            match h !! i with
            | None => Some h
            | Some header =>
                if marked header then Some h
                else
                  let h1 := <[i := set_marked true header]> h in
                  gc_mark_from_region_loop (gc_mark_object fuel' m) m
                    (trip_count (obj_start header) (obj_end header))
                    (obj_start header) (obj_end header) h1
            end
        end
  end.

(** [gc_mark_from_region start end] *)
Definition gc_mark_from_region (fuel : nat) (m : memory) (start end_ : Z)
    (h : registry) : option registry :=
  gc_mark_from_region_loop (gc_mark_object fuel m) m
    (trip_count start end_) start end_ h.

(** ** The collector state and the system allocator *)

(** What the collector does to the outside: calls of [malloc] (request
    and result, 0 for null), calls of [free], and the diagnostic line
    that [gc_sweep] prints with the size of a reclaimed object. *)
Inductive Event : Type :=
  | SysMalloc (request result : Z)
  | SysFree (p : Z)
  | Output (freed_size : Z).

(** The globals [heap_start] and [stack_bottom], the byte memory and the
    history of events. *)
Record World : Type := mkWorld {
  heap_start : registry;
  stack_bottom : Z;
  mem : memory;
  trace : list Event
}.

Definition with_heap (h : registry) (w : World) : World :=
  {| heap_start := h; stack_bottom := stack_bottom w;
     mem := mem w; trace := trace w |}.

Definition emit (e : Event) (w : World) : World :=
  {| heap_start := heap_start w; stack_bottom := stack_bottom w;
     mem := mem w; trace := trace w ++ [e] |}.


(** [GC_init]: [dummy] is the address of its local variable. *)
Definition GC_init (dummy : Z) (w : World) : World :=
  {| heap_start := heap_start w; stack_bottom := dummy;
     mem := mem w; trace := trace w |}.

(** [size_t total_size = sizeof(ObjectHeader) + size] *)
Definition total_size (sz : Z) : Z := wrap (sizeof_ObjectHeader + sz).

(** The bytes [malloc(total_size)] handed out for a node. *)
Definition in_chunk (p : ObjectHeader) (a : Z) : bool :=
  (addr p <=? a) && (a <? addr p + total_size (size p)).

(** [gc_mark]: [stack_top] is the address of its local [dummy]. *)
Definition gc_mark (fuel : nat) (stack_top : Z) (w : World) : option World :=
  let start := stack_top in
  let end_ := stack_bottom w in
  let '(start, end_) :=
    if start >? end_ then (end_, start) else (start, end_) in
  match gc_mark_from_region fuel (mem w) start end_ (heap_start w) with
  | Some h => Some (with_heap h w)
  | None => None
  end.

Section SystemAllocator.

(** The system allocator is any function of the history of calls:
    [sys_malloc t n] is what [malloc(n)] returns after the events [t]
    (0 for null). *)
Variable sys_malloc : list Event -> Z -> Z.

(** What a [free] leaves in the bytes of the chunk it releases. *)
Variable sys_free_fill : list Event -> Z -> byte.

(** [free(current)]: the chunk is returned to the allocator and its
    contents become indeterminate; no other byte changes. *)
Definition release (current : ObjectHeader) (t : list Event) (m : memory)
  : memory :=
  fun a => if in_chunk current a then sys_free_fill t a else m a.

(** The loop of [gc_sweep] from the link it stands on. *)
Fixpoint gc_sweep_loop (p : registry) (m : memory) (t : list Event)
  : registry * memory * list Event :=
  match p with
  | [] => ([], m, t)
  | current :: next =>
      if marked current then
        let '(rest, m', t') := gc_sweep_loop next m t in
        (set_marked false current :: rest, m', t')
      else
        let t1 := t ++ [Output (size current)] in
        gc_sweep_loop next (release current t1 m)
                      (t1 ++ [SysFree (addr current)])
  end.

Definition gc_sweep (w : World) : World :=
  let '(h, m, t) := gc_sweep_loop (heap_start w) (mem w) (trace w) in
  {| heap_start := h; stack_bottom := stack_bottom w; mem := m; trace := t |}.

Definition gc_collect (fuel : nat) (stack_top : Z) (w : World)
  : option World :=
  match gc_mark fuel stack_top w with
  | Some w' => Some (gc_sweep w')
  | None => None
  end.

(** The tail of [GC_malloc] once [header] is not null. *)
Definition install (header sz : Z) (w : World) : Z * World :=
  (wrap (header + sizeof_ObjectHeader),
   with_heap ({| addr := header; marked := false; size := sz |}
                :: heap_start w) w).

(** [malloc(n)] against the current history. *)
Definition call_malloc (n : Z) (w : World) : Z * World :=
  let r := sys_malloc (trace w) n in (r, emit (SysMalloc n r) w).

(** [GC_malloc(size)].  The result is the returned pointer (0 for
    null) and the new state; [stack_top] is the stack position that
    [gc_mark] observes if a collection runs, [fuel] bounds the depth
    of the marking recursion. *)
Definition GC_malloc (fuel : nat) (stack_top : Z) (sz : Z) (w : World)
  : option (Z * World) :=
  let total := total_size sz in
  let '(header, w1) := call_malloc total w in
  if header =? 0 then
    match gc_collect fuel stack_top w1 with
    | Some w2 =>
        let '(header2, w3) := call_malloc total w2 in
        if header2 =? 0 then Some (0, w3)
        else Some (install header2 sz w3)
    | None => None
    end
  else Some (install header sz w1).

End SystemAllocator.

(** ** The data-model invariant and the specification's vocabulary *)

(** The data range of a Block as the specification writes it: the
    half-open interval [[data_start, data_start + size)], where
    [data_start] is the reference the allocator handed out. *)
Definition in_data_range (p : ObjectHeader) (a : Z) : Prop :=
  obj_start p <= a < obj_start p + size p.

(** Header fields hold [size_t] and pointer values. *)
Definition typed_header (p : ObjectHeader) : Prop :=
  0 <= addr p < SIZE_MOD /\ 0 <= size p < SIZE_MOD.

(** A header and its data lie inside the address space, away from null
    and with a representable one-past-the-end pointer. *)
Definition wf_header (p : ObjectHeader) : bool :=
  (0 <? addr p) && (0 <=? size p)
  && (addr p + sizeof_ObjectHeader + size p <? SIZE_MOD).

(** Two chunks (header followed by data) do not overlap. *)
Definition chunks_apart (p q : ObjectHeader) : bool :=
  (addr p + sizeof_ObjectHeader + size p <=? addr q)
  || (addr q + sizeof_ObjectHeader + size q <=? addr p).

(** The invariant of the data model: every Block's data region is the
    [size] bytes right after its metadata and no Block overlaps
    another. *)
Fixpoint wf_registry (h : registry) : bool :=
  match h with
  | [] => true
  | p :: next =>
      wf_header p && forallb (chunks_apart p) next && wf_registry next
  end.

(** No Block carries a mark (the state between collection cycles). *)
Definition all_unmarked (h : registry) : Prop :=
  Forall (fun p => marked p = false) h.

(** ** Facts on machine arithmetic and on ranges *)

Lemma SIZE_MOD_pos : 0 < SIZE_MOD.
Proof. reflexivity. Qed.

Lemma wrap_small z : 0 <= z < SIZE_MOD -> wrap z = z.
Proof. intros H. unfold wrap. apply Z.mod_small. exact H. Qed.

Lemma wrap_range z : 0 <= wrap z < SIZE_MOD.
Proof. unfold wrap. apply Z.mod_pos_bound. exact SIZE_MOD_pos. Qed.

Lemma wrap_le z : 0 <= z -> wrap z <= z.
Proof.
  intros H. unfold wrap. apply Z.mod_le; [exact H | exact SIZE_MOD_pos].
Qed.

Lemma wf_header_spec p :
  wf_header p = true ->
  0 < addr p /\ 0 <= size p /\
  obj_start p = addr p + sizeof_ObjectHeader /\
  obj_end p = addr p + sizeof_ObjectHeader + size p /\
  obj_end p < SIZE_MOD.
Proof.
  unfold wf_header. rewrite !andb_true_iff.
  intros [[Ha Hs] Hb].
  apply Z.ltb_lt in Ha. apply Z.leb_le in Hs. apply Z.ltb_lt in Hb.
  assert (Hst : obj_start p = addr p + sizeof_ObjectHeader).
  { unfold obj_start. apply wrap_small. unfold sizeof_ObjectHeader in *. lia. }
  assert (Hen : obj_end p = addr p + sizeof_ObjectHeader + size p).
  { unfold obj_end. rewrite Hst. apply wrap_small.
    unfold sizeof_ObjectHeader in *. lia. }
  repeat split; try assumption. rewrite Hen. exact Hb.
Qed.

(** Whatever the scan accepts lies in the Block's data range. *)
Lemma contains_in_data_range p ptr :
  0 <= size p -> contains p ptr = true -> in_data_range p ptr.
Proof.
  intros Hs. unfold contains, in_data_range.
  rewrite andb_true_iff. intros [H1 H2].
  apply Z.leb_le in H1. apply Z.ltb_lt in H2.
  split; [exact H1 |].
  assert (H0 : 0 <= obj_start p) by (unfold obj_start; apply wrap_range).
  unfold obj_end in H2.
  pose proof (wrap_le (obj_start p + size p)). lia.
Qed.

Lemma wf_contains p ptr :
  wf_header p = true ->
  contains p ptr = true <-> in_data_range p ptr.
Proof.
  intros Hwf. destruct (wf_header_spec p Hwf) as (_ & Hs & Hst & Hen & _).
  unfold contains, in_data_range.
  rewrite andb_true_iff, Z.leb_le, Z.ltb_lt, Hen, Hst. lia.
Qed.

Lemma contains_empty p ptr : size p = 0 -> contains p ptr = false.
Proof.
  intros Hs. unfold contains, obj_end. rewrite Hs, Z.add_0_r.
  rewrite (wrap_small (obj_start p)) by (unfold obj_start; apply wrap_range).
  apply andb_false_iff.
  destruct (Z.leb_spec (obj_start p) ptr) as [H | H]; [right | left; reflexivity].
  apply Z.ltb_ge. exact H.
Qed.

Lemma get_header_cons p next ptr :
  get_header_from_data_ptr (p :: next) ptr =
  if contains p ptr then Some O
  else S <$> get_header_from_data_ptr next ptr.
Proof. reflexivity. Qed.

(** The scan returns a position of the chain, and that node passes the
    containment test. *)
Lemma get_header_Some h ptr i :
  get_header_from_data_ptr h ptr = Some i ->
  exists p, h !! i = Some p /\ contains p ptr = true.
Proof.
  revert i. induction h as [| q next IH]; intros i; simpl; [discriminate |].
  destruct (contains q ptr) eqn:Hc.
  - intros [= <-]. exists q. split; [reflexivity | exact Hc].
  - destruct (get_header_from_data_ptr next ptr) as [j |]; simpl; [| discriminate].
    intros [= <-]. apply IH. reflexivity.
Qed.

Lemma get_header_None h ptr :
  get_header_from_data_ptr h ptr = None <->
  forall p, In p h -> contains p ptr = false.
Proof.
  induction h as [| q next IH]; simpl.
  - split; [intros _ p [] | reflexivity].
  - destruct (contains q ptr) eqn:Hc.
    + split; [discriminate |]. intros H. rewrite (H q) in Hc by (left; reflexivity).
      discriminate.
    + destruct (get_header_from_data_ptr next ptr) as [j |] eqn:Hg; simpl.
      * split; [discriminate |]. intros H.
        destruct IH as [_ IH].
        discriminate (IH (fun p Hp => H p (or_intror Hp))).
      * split; [| reflexivity]. intros _ p [<- | Hp]; [exact Hc |].
        destruct IH as [IH _]. apply IH; [reflexivity | exact Hp].
Qed.

(** ** What marking may change *)

(** The geometry of the chain: addresses and sizes, in link order. *)
Definition shape (h : registry) : list (Z * Z) :=
  map (fun p => (addr p, size p)) h.

Definition marked_at (h : registry) (i : nat) : bool :=
  match h !! i with
  | Some p => marked p
  | None => false
  end.

(** [h'] is [h] with some more marks. *)
Definition extends (h h' : registry) : Prop :=
  shape h' = shape h /\
  forall i, marked_at h i = true -> marked_at h' i = true.

Definition unmarked_count (h : registry) : nat :=
  length (List.filter (fun p => negb (marked p)) h).

Lemma contains_geometry p q ptr :
  addr p = addr q -> size p = size q -> contains p ptr = contains q ptr.
Proof.
  intros Ha Hs. unfold contains, obj_end, obj_start. rewrite Ha, Hs. reflexivity.
Qed.

Lemma get_header_shape h h' ptr :
  shape h = shape h' ->
  get_header_from_data_ptr h ptr = get_header_from_data_ptr h' ptr.
Proof.
  revert h'. induction h as [| p next IH]; intros [| q next']; simpl;
    try discriminate; [reflexivity |].
  intros [= Ha Hs Hn].
  rewrite (contains_geometry p q ptr Ha Hs), (IH next' Hn). reflexivity.
Qed.

Lemma shape_length h h' : shape h = shape h' -> length h = length h'.
Proof.
  intros H. apply (f_equal (@length _)) in H. unfold shape in H.
  rewrite !length_map in H. exact H.
Qed.

Lemma shape_lookup h h' i p :
  shape h = shape h' -> h !! i = Some p ->
  exists q, h' !! i = Some q /\ addr q = addr p /\ size q = size p.
Proof.
  revert h' i. induction h as [| a next IH]; intros [| b next'] i; simpl;
    try discriminate.
  intros [= Ha Hs Hn]. destruct i as [| i]; simpl.
  - intros [= <-]. exists b. split; [reflexivity |]. split; congruence.
  - apply IH. exact Hn.
Qed.

Lemma shape_insert h i p q :
  h !! i = Some p -> addr q = addr p -> size q = size p ->
  shape (<[i := q]> h) = shape h.
Proof.
  revert i. induction h as [| a next IH]; intros [| i]; simpl; try discriminate.
  - intros [= ->] Ha Hs. rewrite Ha, Hs. reflexivity.
  - intros H Ha Hs. f_equal. apply IH; assumption.
Qed.

Lemma extends_refl h : extends h h.
Proof. split; [reflexivity | auto]. Qed.

Lemma extends_trans h1 h2 h3 : extends h1 h2 -> extends h2 h3 -> extends h1 h3.
Proof.
  intros [S1 M1] [S2 M2]. split; [congruence | auto].
Qed.

Lemma marked_at_insert_eq h i p q :
  h !! i = Some p -> marked_at (<[i := q]> h) i = marked q.
Proof.
  intros H. unfold marked_at.
  rewrite list_lookup_insert_eq; [reflexivity |].
  apply lookup_lt_Some in H. exact H.
Qed.

Lemma marked_at_insert_ne h i j q :
  i <> j -> marked_at (<[i := q]> h) j = marked_at h j.
Proof.
  intros H. unfold marked_at. rewrite list_lookup_insert_ne by exact H.
  reflexivity.
Qed.

Lemma extends_mark h i p :
  h !! i = Some p -> extends h (<[i := set_marked true p]> h).
Proof.
  intros H. split.
  - apply (shape_insert h i p); [exact H | reflexivity | reflexivity].
  - intros j Hj. destruct (Nat.eq_dec i j) as [<- | Hne].
    + rewrite (marked_at_insert_eq h i p) by exact H. reflexivity.
    + rewrite marked_at_insert_ne by exact Hne. exact Hj.
Qed.

Lemma unmarked_count_mark h i p :
  h !! i = Some p -> marked p = false ->
  S (unmarked_count (<[i := set_marked true p]> h)) = unmarked_count h.
Proof.
  unfold unmarked_count.
  revert i. induction h as [| a next IH]; intros [| i]; simpl; try discriminate.
  - intros [= ->] Hm. rewrite Hm. reflexivity.
  - intros H Hm. destruct (marked a); simpl.
    + apply IH; assumption.
    + f_equal. apply IH; assumption.
Qed.

Lemma unmarked_count_extends h h' :
  extends h h' -> (unmarked_count h' <= unmarked_count h)%nat.
Proof.
  intros [Hs Hm]. apply shape_length in Hs. revert h' Hs Hm.
  unfold unmarked_count.
  induction h as [| a next IH]; intros [| b next']; simpl; try discriminate.
  - intros _ _. apply Nat.le_refl.
  - intros [= Hl] Hm.
    assert (Hrec : (length (List.filter (fun p => negb (marked p)) next')
                    <= length (List.filter (fun p => negb (marked p)) next))%nat).
    { apply IH; [exact Hl |]. intros i. exact (Hm (S i)). }
    specialize (Hm O). unfold marked_at in Hm. simpl in Hm.
    destruct (marked a); simpl.
    + rewrite Hm by reflexivity. simpl. exact Hrec.
    + destruct (marked b); simpl; lia.
Qed.

Lemma unmarked_count_le_length h : (unmarked_count h <= length h)%nat.
Proof. unfold unmarked_count. apply filter_length_le. Qed.

(** ** The graph that the mark phase walks *)

(** The node a candidate value leads [gc_mark_object] to. *)
Definition target (h : registry) (v : Z) : option nat :=
  if v =? 0 then None else get_header_from_data_ptr h v.

(** The word addresses the loop of [gc_mark_from_region] visits. *)
Fixpoint loop_positions (n : nat) (p end_ : Z) : list Z :=
  match n with
  | O => []
  | S n' =>
      if p <? end_ then p :: loop_positions n' (p + sizeof_ptr) end_ else []
  end.

Definition scanned (start end_ : Z) : list Z :=
  loop_positions (trip_count start end_) start end_.

(** The candidate values read from a region. *)
Definition candidates (m : memory) (start end_ : Z) : list Z :=
  map (load_word m) (scanned start end_).

(** The word read at [p] lies clear of every header of the chain.  The
    source keeps the flag [marked] in the first byte of the header, and
    a scan reads whole words, the last one of a region possibly across
    its end; the nodes of this model and the memory that the scans read
    describe the same run as long as no scanned word overlaps a
    header. *)
Definition word_clear (h : registry) (p : Z) : bool :=
  forallb (fun c => (p + sizeof_ptr <=? addr c)
                    || (addr c + sizeof_ObjectHeader <=? p)) h.

(** Every word that [gc_mark_from_region start end] reads is clear. *)
Definition scan_clear (h : registry) (start end_ : Z) : bool :=
  forallb (word_clear h) (scanned start end_).

(** Every word read when the data of a Block is scanned is clear. *)
Definition data_scans_clear (h : registry) : bool :=
  forallb (fun b => scan_clear h (obj_start b) (obj_end b)) h.

(** The same for a whole mark phase with Root Region [[lo, hi)]. *)
Definition scans_clear (h : registry) (lo hi : Z) : bool :=
  scan_clear h lo hi && data_scans_clear h.

(** Node [i] holds a word that leads to node [j]. *)
Definition edge (m : memory) (h : registry) (i j : nat) : Prop :=
  exists b v, h !! i = Some b /\
              In v (candidates m (obj_start b) (obj_end b)) /\
              target h v = Some j.

Lemma target_shape h h' v : shape h = shape h' -> target h v = target h' v.
Proof.
  intros H. unfold target. rewrite (get_header_shape h h' v H). reflexivity.
Qed.

Lemma obj_bounds_geometry p q :
  addr q = addr p -> size q = size p ->
  obj_start q = obj_start p /\ obj_end q = obj_end p.
Proof.
  intros Ha Hs. unfold obj_end, obj_start. rewrite Ha, Hs. split; reflexivity.
Qed.

Lemma edge_shape m h h' i j : shape h = shape h' -> edge m h i j -> edge m h' i j.
Proof.
  intros Hs (b & v & Hb & Hv & Ht).
  destruct (shape_lookup h h' i b Hs Hb) as (q & Hq & Ha & Hz).
  destruct (obj_bounds_geometry b q Ha Hz) as [E1 E2].
  exists q, v. rewrite E1, E2, <- (target_shape h h' v Hs). auto.
Qed.

(** What a run of marking over the candidate values [vs] guarantees,
    from [h] to [h']: only marks are added; every node a candidate leads
    to is marked; every node marked by the run has all its successors
    marked; and the run marks nothing outside a set closed under [edge]
    that holds the nodes the candidates lead to. *)
Record mark_post (m : memory) (vs : list Z) (h h' : registry) : Prop := {
  post_extends : extends h h';
  post_targets :
    forall v j, In v vs -> target h v = Some j -> marked_at h' j = true;
  post_closed :
    forall x y, marked_at h x = false -> marked_at h' x = true ->
                edge m h x y -> marked_at h' y = true;
  post_within :
    forall R : nat -> Prop,
      (forall x y, R x -> edge m h x y -> R y) ->
      (forall v j, In v vs -> target h v = Some j -> R j) ->
      forall x, marked_at h x = false -> marked_at h' x = true -> R x
}.

Lemma mark_post_nil m h : mark_post m [] h h.
Proof.
  split.
  - apply extends_refl.
  - intros v j [].
  - intros x y H1 H2. congruence.
  - intros R _ _ x H1 H2. congruence.
Qed.

(** A candidate that leads nowhere, or to a marked node, changes
    nothing. *)
Lemma mark_post_skip m v h :
  (forall j, target h v = Some j -> marked_at h j = true) ->
  mark_post m [v] h h.
Proof.
  intros H. split.
  - apply extends_refl.
  - intros v' j [<- | []]. apply H.
  - intros x y H1 H2. congruence.
  - intros R _ _ x H1 H2. congruence.
Qed.

Lemma mark_post_seq m v vs h1 h2 h3 :
  mark_post m [v] h1 h2 -> mark_post m vs h2 h3 ->
  mark_post m (v :: vs) h1 h3.
Proof.
  intros [E1 T1 C1 W1] [E2 T2 C2 W2].
  pose proof E1 as [S1 M1]. pose proof E2 as [S2 M2].
  split.
  - exact (extends_trans _ _ _ E1 E2).
  - intros v' j [<- | Hin] Ht.
    + apply M2. apply (T1 v j); [left; reflexivity | exact Ht].
    + apply (T2 v' j Hin). rewrite (target_shape h2 h1 v' S1). exact Ht.
  - intros x y Hx Hx3 He.
    destruct (marked_at h2 x) eqn:Hx2.
    + apply M2. exact (C1 x y Hx Hx2 He).
    + apply (C2 x y Hx2 Hx3). apply (edge_shape m h1 h2); [congruence | exact He].
  - intros R Hcl Hroots x Hx Hx3.
    destruct (marked_at h2 x) eqn:Hx2.
    + apply (W1 R Hcl); [| exact Hx | exact Hx2].
      intros v' j [<- | []] Ht. apply (Hroots v j); [left; reflexivity | exact Ht].
    + apply (W2 R); [| | exact Hx2 | exact Hx3].
      * intros a b Ha He. apply (Hcl a b Ha).
        apply (edge_shape m h2 h1); [exact S1 | exact He].
      * intros v' j Hin Ht. apply (Hroots v' j); [right; exact Hin |].
        rewrite (target_shape h1 h2 v') by congruence. exact Ht.
Qed.

(** Marking node [i] and then running over the words of its data. *)
Lemma mark_post_visit m v h i b h' :
  target h v = Some i -> h !! i = Some b -> marked b = false ->
  mark_post m (candidates m (obj_start b) (obj_end b))
            (<[i := set_marked true b]> h) h' ->
  mark_post m [v] h h'.
Proof.
  intros Ht Hb Hm [E T C W].
  pose proof (extends_mark h i b Hb) as E0.
  pose proof E0 as [S0 M0]. pose proof E as [S1 M1].
  set (h1 := <[i := set_marked true b]> h) in *.
  assert (Hi1 : marked_at h1 i = true).
  { unfold h1. rewrite (marked_at_insert_eq h i b) by exact Hb. reflexivity. }
  split.
  - exact (extends_trans _ _ _ E0 E).
  - intros v' j [<- | []] Hj. rewrite Ht in Hj. injection Hj as <-.
    apply M1. exact Hi1.
  - intros x y Hx Hx' He.
    destruct (Nat.eq_dec i x) as [<- | Hne].
    + destruct He as (b' & w & Hb' & Hw & Htw).
      rewrite Hb in Hb'. injection Hb' as <-.
      apply (T w y Hw). rewrite (target_shape h1 h w S0). exact Htw.
    + apply (C x y); [| exact Hx' |].
      * unfold h1. rewrite marked_at_insert_ne by exact Hne. exact Hx.
      * apply (edge_shape m h h1); [congruence | exact He].
  - intros R Hcl Hroots x Hx Hx'.
    assert (Ri : R i) by (apply (Hroots v i); [left; reflexivity | exact Ht]).
    destruct (Nat.eq_dec i x) as [<- | Hne]; [exact Ri |].
    apply (W R); [| | | exact Hx'].
    + intros a c Ha He. apply (Hcl a c Ha).
      apply (edge_shape m h1 h); [exact S0 | exact He].
    + intros w j Hw Htw. apply (Hcl i j Ri).
      exists b, w. rewrite <- (target_shape h1 h w S0). auto.
    + unfold h1. rewrite marked_at_insert_ne by exact Hne. exact Hx.
Qed.

(** ** The marking recursion returns, and what it returns *)

Section MarkLoop.

Variable m : memory.
Variable mark_object : Z -> registry -> option registry.
Variable bound : nat.

(** The marking function does its job on every chain with at most
    [bound] unmarked nodes. *)
Hypothesis mark_object_ok :
  forall ptr h, (unmarked_count h <= bound)%nat ->
    exists h', mark_object ptr h = Some h' /\ mark_post m [ptr] h h'.

Lemma gc_mark_from_region_loop_post n :
  forall p end_ h, (unmarked_count h <= bound)%nat ->
    exists h', gc_mark_from_region_loop mark_object m n p end_ h = Some h' /\
               mark_post m (map (load_word m) (loop_positions n p end_)) h h'.
Proof.
  induction n as [| n IH]; intros p end_ h Hc; simpl.
  - exists h. split; [reflexivity | apply mark_post_nil].
  - destruct (p <? end_).
    + destruct (mark_object_ok (load_word m p) h Hc) as (h1 & -> & P1).
      assert (Hc1 : (unmarked_count h1 <= bound)%nat).
      { pose proof (unmarked_count_extends h h1 (post_extends _ _ _ _ P1)). lia. }
      destruct (IH (p + sizeof_ptr) end_ h1 Hc1) as (h2 & -> & P2).
      exists h2. split; [reflexivity |].
      simpl. exact (mark_post_seq m _ _ h h1 h2 P1 P2).
    + exists h. split; [reflexivity | apply mark_post_nil].
Qed.

End MarkLoop.

Lemma gc_mark_object_unfold fuel m ptr h :
  gc_mark_object (S fuel) m ptr h =
  if ptr =? 0 then Some h
  else
    match get_header_from_data_ptr h ptr with
    | None => Some h
    | Some i =>
        match h !! i with
        | None => Some h
        | Some header =>
            if marked header then Some h
            else gc_mark_from_region fuel m (obj_start header) (obj_end header)
                   (<[i := set_marked true header]> h)
        end
    end.
Proof. reflexivity. Qed.

Lemma marked_at_lookup h i p : h !! i = Some p -> marked_at h i = marked p.
Proof. intros H. unfold marked_at. rewrite H. reflexivity. Qed.

(** With more fuel than unmarked nodes, [gc_mark_object] returns. *)
Lemma gc_mark_object_post m fuel :
  forall ptr h, (unmarked_count h < fuel)%nat ->
    exists h', gc_mark_object fuel m ptr h = Some h' /\ mark_post m [ptr] h h'.
Proof.
  induction fuel as [| fuel IH]; intros ptr h Hc; [lia |].
  rewrite gc_mark_object_unfold. unfold target.
  destruct (ptr =? 0) eqn:Hnull.
  { exists h. split; [reflexivity |]. apply mark_post_skip.
    unfold target. rewrite Hnull. discriminate. }
  destruct (get_header_from_data_ptr h ptr) as [i |] eqn:Hfind.
  2:{ exists h. split; [reflexivity |]. apply mark_post_skip.
      unfold target. rewrite Hnull, Hfind. discriminate. }
  destruct (h !! i) as [header |] eqn:Hi.
  2:{ destruct (get_header_Some h ptr i Hfind) as (p & Hp & _). congruence. }
  destruct (marked header) eqn:Hm.
  { exists h. split; [reflexivity |]. apply mark_post_skip.
    unfold target. rewrite Hnull, Hfind. intros j [= <-].
    rewrite (marked_at_lookup h i header Hi). exact Hm. }
  pose proof (unmarked_count_mark h i header Hi Hm) as Hdec.
  set (h1 := <[i := set_marked true header]> h) in *.
  destruct (gc_mark_from_region_loop_post m (gc_mark_object fuel m)
              (unmarked_count h1)
              (fun q g Hg => IH q g ltac:(lia))
              (trip_count (obj_start header) (obj_end header))
              (obj_start header) (obj_end header) h1 (Nat.le_refl _))
    as (h' & Hrun & Hpost).
  exists h'. split; [exact Hrun |].
  apply (mark_post_visit m ptr h i header h'); try assumption.
  unfold target. rewrite Hnull. exact Hfind.
Qed.

Lemma gc_mark_from_region_post m fuel start end_ h :
  (unmarked_count h < fuel)%nat ->
  exists h', gc_mark_from_region fuel m start end_ h = Some h' /\
             mark_post m (candidates m start end_) h h'.
Proof.
  intros Hc.
  apply (gc_mark_from_region_loop_post m (gc_mark_object fuel m)
           (unmarked_count h)
           (fun q g Hg => gc_mark_object_post m fuel q g ltac:(lia))).
  apply Nat.le_refl.
Qed.

(** ** Building concrete memories *)

Definition byte_of_Z (z : Z) : byte :=
  match Byte.of_N (Z.to_N (z mod 256)) with
  | Some b => b
  | None => x00
  end.

Definition zero_memory : memory := fun _ => x00.

(** Stores the pointer-sized word [v] at [p], little-endian. *)
Definition store_word (p v : Z) (m : memory) : memory :=
  fun a =>
    if (p <=? a) && (a <? p + sizeof_ptr)
    then byte_of_Z (v / 2 ^ (8 * (a - p)))
    else m a.

(** ** Reachability as the specification defines it *)

(** A word position of [ScanRegion(start, end)]: fixed-width steps from
    [start], as long as the position is below [end]. *)
Definition region_word (start end_ p : Z) : Prop :=
  exists k, 0 <= k /\ p = start + sizeof_ptr * k /\ p < end_.

(** Block [j] of the registry owns the address [v]. *)
Definition owns (h : registry) (v : Z) (j : nat) : Prop :=
  exists b, h !! j = Some b /\ in_data_range b v.

(** The bounds of the Root Region, lower address first. *)
Definition root_lo (stack_top : Z) (w : World) : Z :=
  Z.min stack_top (stack_bottom w).
Definition root_hi (stack_top : Z) (w : World) : Z :=
  Z.max stack_top (stack_bottom w).

(** Transitive reachability from the region [[lo, hi)] through the
    pointer-shaped words of Block data. *)
Inductive reachable (m : memory) (h : registry) (lo hi : Z) : nat -> Prop :=
  | reach_root p j :
      region_word lo hi p -> owns h (load_word m p) j ->
      reachable m h lo hi j
  | reach_field i b p j :
      reachable m h lo hi i -> h !! i = Some b ->
      region_word (obj_start b) (obj_start b + size b) p ->
      owns h (load_word m p) j ->
      reachable m h lo hi j.

Lemma loop_positions_In n :
  forall p end_ q,
    In q (loop_positions n p end_) <->
    exists k, 0 <= k < Z.of_nat n /\ q = p + sizeof_ptr * k /\ q < end_.
Proof.
  unfold sizeof_ptr.
  induction n as [| n IH]; intros p end_ q; simpl loop_positions.
  - split; [intros [] | intros (k & Hk & _); lia].
  - destruct (Z.ltb_spec p end_) as [Hlt | Hge].
    + simpl. rewrite IH. split.
      * intros [<- | (k & Hk & -> & Hq)].
        -- exists 0. lia.
        -- exists (k + 1). unfold sizeof_ptr in *. lia.
      * intros (k & Hk & -> & Hq).
        destruct (Z.eq_dec k 0) as [-> | Hne]; [left; lia | right].
        exists (k - 1). unfold sizeof_ptr in *. lia.
    + split; [intros [] |]. intros (k & Hk & -> & Hq). lia.
Qed.

Lemma scanned_region_word start end_ p :
  In p (scanned start end_) <-> region_word start end_ p.
Proof.
  unfold scanned, region_word. rewrite loop_positions_In. unfold trip_count, sizeof_ptr.
  split; intros (k & Hk & -> & Hq); exists k; (split; [| split; [reflexivity | exact Hq]]).
  - lia.
  - split; [lia |].
    assert (Hdiv : k + 1 <= (end_ - start + (8 - 1)) / 8).
    { apply Z.div_le_lower_bound; lia. }
    rewrite Z2Nat.id; lia.
Qed.

Lemma wf_registry_cons p next :
  wf_registry (p :: next) = true ->
  wf_header p = true /\
  (forall q, In q next -> chunks_apart p q = true) /\
  wf_registry next = true.
Proof.
  simpl. rewrite !andb_true_iff, forallb_forall. tauto.
Qed.

Lemma wf_registry_lookup h i p :
  wf_registry h = true -> h !! i = Some p -> wf_header p = true.
Proof.
  revert i. induction h as [| a next IH]; intros i Hwf Hi.
  - rewrite lookup_nil in Hi. discriminate.
  - apply wf_registry_cons in Hwf as (Ha & _ & Hn).
    destruct i as [| i]; simpl in Hi.
    + injection Hi as <-. exact Ha.
    + exact (IH i Hn Hi).
Qed.

Lemma chunks_apart_ranges p q v :
  wf_header p = true -> wf_header q = true -> chunks_apart p q = true ->
  in_data_range p v -> in_data_range q v -> False.
Proof.
  intros Hp Hq Hap.
  destruct (wf_header_spec p Hp) as (? & ? & Sp & _).
  destruct (wf_header_spec q Hq) as (? & ? & Sq & _).
  unfold in_data_range. rewrite Sp, Sq.
  unfold chunks_apart in Hap. apply orb_true_iff in Hap.
  rewrite !Z.leb_le in Hap. unfold sizeof_ObjectHeader in *. lia.
Qed.

(** On a well-formed registry the scan finds the owner of an address. *)
Lemma wf_get_header h :
  wf_registry h = true ->
  forall j b v, h !! j = Some b -> in_data_range b v ->
                get_header_from_data_ptr h v = Some j.
Proof.
  induction h as [| a next IH]; intros Hwf j b v Hj Hv.
  - rewrite lookup_nil in Hj. discriminate.
  - apply wf_registry_cons in Hwf as (Ha & Hap & Hn).
    rewrite get_header_cons. destruct j as [| j]; simpl in Hj.
    + injection Hj as <-.
      destruct (wf_contains a v Ha) as [_ Hc]. rewrite (Hc Hv). reflexivity.
    + assert (Hb : In b next).
      { apply list_elem_of_In, list_elem_of_lookup. exists j. exact Hj. }
      destruct (contains a v) eqn:Hc.
      * exfalso. apply (chunks_apart_ranges a b v Ha); auto.
        -- exact (wf_registry_lookup next j b Hn Hj).
        -- apply (wf_contains a v Ha). exact Hc.
      * rewrite (IH Hn j b v Hj Hv). reflexivity.
Qed.

Lemma wf_target h v j :
  wf_registry h = true -> target h v = Some j <-> owns h v j.
Proof.
  intros Hwf. unfold target, owns. split.
  - destruct (v =? 0); [discriminate |]. intros Hg.
    destruct (get_header_Some h v j Hg) as (p & Hp & Hc).
    exists p. split; [exact Hp |].
    apply (wf_contains p v); [exact (wf_registry_lookup h j p Hwf Hp) | exact Hc].
  - intros (b & Hb & Hv).
    pose proof (wf_registry_lookup h j b Hwf Hb) as Hwb.
    destruct (wf_header_spec b Hwb) as (Ha & _ & Hs & _).
    destruct (Z.eqb_spec v 0) as [-> | _].
    + unfold in_data_range in Hv. rewrite Hs in Hv.
      unfold sizeof_ObjectHeader in Hv. lia.
    + exact (wf_get_header h Hwf j b v Hb Hv).
Qed.

Lemma all_unmarked_marked_at h i : all_unmarked h -> marked_at h i = false.
Proof.
  intros H. unfold marked_at. destruct (h !! i) as [p |] eqn:Hi; [| reflexivity].
  unfold all_unmarked in H. rewrite Forall_lookup in H. exact (H i p Hi).
Qed.

Lemma wf_edge m h i b v j :
  wf_registry h = true -> h !! i = Some b ->
  (In v (candidates m (obj_start b) (obj_end b)) /\ target h v = Some j) <->
  (exists p, region_word (obj_start b) (obj_start b + size b) p /\
             v = load_word m p /\ owns h v j).
Proof.
  intros Hwf Hb.
  destruct (wf_header_spec b (wf_registry_lookup h i b Hwf Hb))
    as (_ & _ & Hs & He & _).
  assert (Hend : obj_end b = obj_start b + size b) by (rewrite He, Hs; reflexivity).
  rewrite <- Hend. unfold candidates. rewrite in_map_iff, (wf_target h v j Hwf).
  split.
  - intros [(p & <- & Hp) Ho]. exists p.
    rewrite <- scanned_region_word. auto.
  - intros (p & Hp & -> & Ho). split; [| exact Ho].
    exists p. rewrite scanned_region_word. auto.
Qed.

(** After a root scan of a well-formed registry that carried no mark,
    the marked Blocks are the reachable ones. *)
Lemma marked_iff_reachable m h lo hi h' :
  wf_registry h = true -> all_unmarked h ->
  mark_post m (candidates m lo hi) h h' ->
  forall i, marked_at h' i = true <-> reachable m h lo hi i.
Proof.
  intros Hwf Hun [E T C W] i. split.
  - intros Hi. apply (W (reachable m h lo hi)).
    + intros x y Hx (b & v & Hb & Hv & Ht).
      destruct (wf_edge m h x b v y Hwf Hb) as [He _].
      destruct (He (conj Hv Ht)) as (p & Hp & -> & Ho).
      exact (reach_field m h lo hi x b p y Hx Hb Hp Ho).
    + intros v j Hv Ht. unfold candidates in Hv.
      apply in_map_iff in Hv as (p & <- & Hp).
      apply (reach_root m h lo hi p j).
      * apply scanned_region_word. exact Hp.
      * apply (wf_target h _ j Hwf). exact Ht.
    + apply all_unmarked_marked_at. exact Hun.
    + exact Hi.
  - induction 1 as [p j Hp Ho | x b p j Hx IH Hb Hp Ho].
    + apply (T (load_word m p) j).
      * unfold candidates. apply in_map. apply scanned_region_word. exact Hp.
      * apply (wf_target h _ j Hwf). exact Ho.
    + apply (C x j); [apply all_unmarked_marked_at; exact Hun | exact IH |].
      exists b, (load_word m p). split; [exact Hb |].
      apply (wf_edge m h x b (load_word m p) j Hwf Hb).
      exists p. auto.
Qed.

Lemma wf_registry_apart h :
  wf_registry h = true ->
  forall i k p q, (i < k)%nat -> h !! i = Some p -> h !! k = Some q ->
                  chunks_apart p q = true.
Proof.
  induction h as [| a next IH]; intros Hwf i k p q Hik Hi Hk.
  - rewrite lookup_nil in Hi. discriminate.
  - apply wf_registry_cons in Hwf as (_ & Hap & Hn).
    destruct k as [| k]; [lia |]. simpl in Hk.
    destruct i as [| i]; simpl in Hi.
    + injection Hi as <-. apply Hap.
      apply list_elem_of_In, list_elem_of_lookup. exists k. exact Hk.
    + apply (IH Hn i k); [lia | exact Hi | exact Hk].
Qed.

(** Distinct nodes of a well-formed registry live at distinct
    addresses. *)
Lemma wf_registry_addr_inj h i k p q :
  wf_registry h = true -> h !! i = Some p -> h !! k = Some q ->
  addr p = addr q -> i = k.
Proof.
  intros Hwf Hi Hk Ha.
  destruct (wf_header_spec p (wf_registry_lookup h i p Hwf Hi)) as (_ & Hsp & _).
  destruct (wf_header_spec q (wf_registry_lookup h k q Hwf Hk)) as (_ & Hsq & _).
  destruct (Nat.lt_trichotomy i k) as [Hlt | [Heq | Hgt]]; [| exact Heq |].
  - pose proof (wf_registry_apart h Hwf i k p q Hlt Hi Hk) as H.
    unfold chunks_apart in H. apply orb_true_iff in H. rewrite !Z.leb_le in H.
    unfold sizeof_ObjectHeader in H. lia.
  - pose proof (wf_registry_apart h Hwf k i q p Hgt Hk Hi) as H.
    unfold chunks_apart in H. apply orb_true_iff in H. rewrite !Z.leb_le in H.
    unfold sizeof_ObjectHeader in H. lia.
Qed.

(** ** The sweep *)

(** The events of a sweep over the chain [p]. *)
Definition sweep_events (p : registry) : list Event :=
  flat_map (fun c => [Output (size c); SysFree (addr c)])
           (List.filter (fun c => negb (marked c)) p).

Lemma gc_sweep_loop_heap fill p :
  forall m t,
    (gc_sweep_loop fill p m t).1.1 = map (set_marked false) (List.filter marked p).
Proof.
  induction p as [| c next IH]; intros m t; simpl; [reflexivity |].
  destruct (marked c).
  - specialize (IH m t). destruct (gc_sweep_loop fill next m t) as [[r m'] t'].
    simpl in *. rewrite IH. reflexivity.
  - apply IH.
Qed.

Lemma gc_sweep_loop_trace fill p :
  forall m t, (gc_sweep_loop fill p m t).2 = t ++ sweep_events p.
Proof.
  unfold sweep_events.
  induction p as [| c next IH]; intros m t; simpl.
  - rewrite app_nil_r. reflexivity.
  - destruct (marked c); simpl.
    + specialize (IH m t). destruct (gc_sweep_loop fill next m t) as [[r m'] t'].
      simpl in *. exact IH.
    + rewrite IH, <- !app_assoc. reflexivity.
Qed.

Lemma gc_sweep_heap fill w :
  heap_start (gc_sweep fill w) =
  map (set_marked false) (List.filter marked (heap_start w)).
Proof.
  unfold gc_sweep.
  rewrite <- (gc_sweep_loop_heap fill (heap_start w) (mem w) (trace w)).
  destruct (gc_sweep_loop fill (heap_start w) (mem w) (trace w)) as [[r m'] t'].
  reflexivity.
Qed.

Lemma gc_sweep_trace fill w :
  trace (gc_sweep fill w) = trace w ++ sweep_events (heap_start w).
Proof.
  unfold gc_sweep.
  rewrite <- (gc_sweep_loop_trace fill (heap_start w) (mem w) (trace w)).
  destruct (gc_sweep_loop fill (heap_start w) (mem w) (trace w)) as [[r m'] t'].
  reflexivity.
Qed.

Lemma gc_sweep_stack_bottom fill w :
  stack_bottom (gc_sweep fill w) = stack_bottom w.
Proof.
  unfold gc_sweep.
  destruct (gc_sweep_loop fill (heap_start w) (mem w) (trace w)) as [[r m'] t'].
  reflexivity.
Qed.

(** ** Worked examples *)

(** Three Blocks, newest first: an empty one, one of 16 bytes and one of
    12 bytes. *)
Definition ex_heap : registry :=
  [ mkHeader 2000 false 0; mkHeader 1000 false 16; mkHeader 3000 false 12 ].

(** The 16-byte Block holds a pointer to its own data in its first word;
    the stack word at 4984 points into the same Block and the stack word
    at 4992 is the data pointer of the empty Block. *)
Definition ex_mem : memory :=
  store_word 1024 1024
    (store_word 4984 1030 (store_word 4992 2024 zero_memory)).

Definition ex_world : World :=
  {| heap_start := ex_heap; stack_bottom := 5000; mem := ex_mem; trace := [] |}.

(** An allocator that has memory to hand out only once something was
    freed. *)
Definition ex_malloc (t : list Event) (n : Z) : Z :=
  if existsb (fun e => match e with SysFree _ => true | _ => false end) t
  then 7000 else 0.

Definition ex_fill (t : list Event) (a : Z) : byte := xff.

(** ** Pointer containment lookup *)

(** C3.  On a registry that satisfies the data-model invariant, for
    every Block [B] of the registry and every offset [0 <= o < B.size],
    the lookup of [B.data_start + o] returns exactly [B] (its position
    in the chain). *)
Theorem find_owning_block_containment (h : registry) (i : nat)
    (B : ObjectHeader) (o : Z) :
  wf_registry h = true ->
  h !! i = Some B ->
  0 <= o < size B ->
  get_header_from_data_ptr h (obj_start B + o) = Some i.
Proof.
  intros Hwf HB Ho. apply (wf_get_header h Hwf i B); [exact HB |].
  unfold in_data_range. lia.
Qed.

Lemma find_owning_block_containment_witness :
  get_header_from_data_ptr ex_heap (obj_start (mkHeader 1000 false 16) + 15)
  = Some 1%nat.
Proof.
  apply (find_owning_block_containment ex_heap 1 (mkHeader 1000 false 16) 15).
  - reflexivity.
  - reflexivity.
  - simpl. lia.
Defined.

(** C4.  A candidate address outside the data range
    [[data_start, data_start + size)] of every Block of the registry
    yields the null result. *)
Theorem find_owning_block_no_false_containment (h : registry) (ptr : Z) :
  (forall p, In p h -> typed_header p) ->
  (forall p, In p h -> ~ in_data_range p ptr) ->
  get_header_from_data_ptr h ptr = None.
Proof.
  intros Hty Hout. apply get_header_None. intros p Hp.
  destruct (contains p ptr) eqn:Hc; [| reflexivity].
  exfalso. apply (Hout p Hp).
  apply contains_in_data_range; [| exact Hc].
  destruct (Hty p Hp) as [_ [Hs _]]. exact Hs.
Qed.

Lemma find_owning_block_no_false_containment_witness :
  get_header_from_data_ptr ex_heap 1040 = None.
Proof.
  apply find_owning_block_no_false_containment.
  - intros p [<- | [<- | [<- | []]]]; unfold typed_header; simpl;
      unfold SIZE_MOD, SIZE_BITS; simpl; lia.
  - intros p [<- | [<- | [<- | []]]]; unfold in_data_range; vm_compute;
      intros [H1 H2]; try (apply H1; reflexivity); try discriminate H2.
Defined.

(** ** Marking: termination and idempotence *)

Lemma gc_mark_from_region_loop_mono (f g : Z -> registry -> option registry) m :
  (forall ptr h h', f ptr h = Some h' -> g ptr h = Some h') ->
  forall n p end_ h h',
    gc_mark_from_region_loop f m n p end_ h = Some h' ->
    gc_mark_from_region_loop g m n p end_ h = Some h'.
Proof.
  intros Hfg. induction n as [| n IH]; intros p end_ h h'; simpl; [auto |].
  destruct (p <? end_); [| auto].
  destruct (f (load_word m p) h) as [h1 |] eqn:Hf; [| discriminate].
  rewrite (Hfg _ _ _ Hf). apply IH.
Qed.

(** A result reached within some fuel is the result for any larger
    fuel. *)
Lemma gc_mark_object_fuel m fuel :
  forall fuel' ptr h h',
    (fuel <= fuel')%nat ->
    gc_mark_object fuel m ptr h = Some h' ->
    gc_mark_object fuel' m ptr h = Some h'.
Proof.
  induction fuel as [| fuel IH]; intros fuel' ptr h h' Hle; [discriminate |].
  destruct fuel' as [| fuel']; [lia |].
  rewrite !gc_mark_object_unfold.
  destruct (ptr =? 0); [auto |].
  destruct (get_header_from_data_ptr h ptr) as [i |]; [| auto].
  destruct (h !! i) as [header |]; [| auto].
  destruct (marked header); [auto |].
  unfold gc_mark_from_region. apply gc_mark_from_region_loop_mono.
  intros q g g'. apply IH. lia.
Qed.

(** A candidate that leads to a marked Block, or nowhere, is a no-op. *)
Lemma gc_mark_object_revisit m fuel ptr h :
  (forall i, target h ptr = Some i -> marked_at h i = true) ->
  gc_mark_object (S fuel) m ptr h = Some h.
Proof.
  intros H. rewrite gc_mark_object_unfold. unfold target in H.
  destruct (ptr =? 0); [reflexivity |].
  destruct (get_header_from_data_ptr h ptr) as [i |]; [| reflexivity].
  specialize (H i eq_refl). unfold marked_at in H.
  destruct (h !! i) as [header |]; [| reflexivity].
  rewrite H. reflexivity.
Qed.

(** C2.  [gc_mark_object] returns on every memory, registry and
    candidate, cyclic object graphs included: any fuel above the number
    of unmarked Blocks is enough, the result only adds marks and does
    not depend on the fuel; and a candidate that leads to an already
    marked Block returns at once with the registry unchanged. *)
Theorem gc_mark_object_terminates (m : memory) (ptr : Z) (h : registry)
    (fuel : nat) :
  (unmarked_count h < fuel)%nat ->
  (exists h',
      gc_mark_object fuel m ptr h = Some h' /\
      extends h h' /\
      forall fuel', (fuel <= fuel')%nat ->
                    gc_mark_object fuel' m ptr h = Some h') /\
  (forall i, target h ptr = Some i -> marked_at h i = true ->
             gc_mark_object fuel m ptr h = Some h).
Proof.
  intros Hc. split.
  - destruct (gc_mark_object_post m fuel ptr h Hc) as (h' & Hrun & Hpost).
    exists h'. split; [exact Hrun |]. split; [exact (post_extends _ _ _ _ Hpost) |].
    intros fuel' Hle. exact (gc_mark_object_fuel m fuel fuel' ptr h h' Hle Hrun).
  - intros i Hi Hm. destruct fuel as [| fuel]; [lia |].
    apply gc_mark_object_revisit. intros j Hj. congruence.
Qed.

(** The Block of [ex_heap] that points to itself: the cycle is walked
    once. *)
Lemma gc_mark_object_terminates_witness :
  exists h', gc_mark_object 4 ex_mem 1024 ex_heap = Some h' /\
             marked_at h' 1 = true.
Proof.
  destruct (gc_mark_object_terminates ex_mem 1024 ex_heap 4) as [(h' & Hrun & _) _].
  - unfold unmarked_count. simpl. lia.
  - exists h'. split; [exact Hrun |].
    vm_compute in Hrun. injection Hrun as <-. reflexivity.
Defined.

(** C5.  Calling [gc_mark_object] a second time on the same candidate
    leaves the registry, and so every mark bit, as the first call left
    it. *)
Theorem gc_mark_object_idempotent (m : memory) (ptr : Z) (h : registry)
    (fuel : nat) :
  (unmarked_count h < fuel)%nat ->
  exists h', gc_mark_object fuel m ptr h = Some h' /\
             gc_mark_object fuel m ptr h' = Some h'.
Proof.
  intros Hc.
  destruct (gc_mark_object_post m fuel ptr h Hc) as (h' & Hrun & [E T _ _]).
  exists h'. split; [exact Hrun |].
  destruct fuel as [| fuel]; [lia |].
  apply gc_mark_object_revisit. intros i Hi.
  apply (T ptr i); [left; reflexivity |].
  destruct E as [Hs _]. rewrite <- (target_shape h' h ptr Hs). exact Hi.
Qed.

Lemma gc_mark_object_idempotent_witness :
  exists h', gc_mark_object 4 ex_mem 1030 ex_heap = Some h' /\
             gc_mark_object 4 ex_mem 1030 h' = Some h'.
Proof.
  apply (gc_mark_object_idempotent ex_mem 1030 ex_heap 4).
  unfold unmarked_count. simpl. lia.
Defined.

(** ** The collection cycle *)

Lemma gc_mark_post fuel stack_top w :
  (unmarked_count (heap_start w) < fuel)%nat ->
  exists h',
    gc_mark fuel stack_top w = Some (with_heap h' w) /\
    mark_post (mem w)
      (candidates (mem w) (root_lo stack_top w) (root_hi stack_top w))
      (heap_start w) h'.
Proof.
  intros Hc. unfold gc_mark, root_lo, root_hi.
  rewrite Z.gtb_ltb.
  destruct (Z.ltb_spec (stack_bottom w) stack_top) as [Hlt | Hge].
  - rewrite Z.min_r, Z.max_l by lia.
    destruct (gc_mark_from_region_post (mem w) fuel (stack_bottom w) stack_top
                (heap_start w) Hc) as (h' & -> & Hpost).
    exists h'. split; [reflexivity | exact Hpost].
  - rewrite Z.min_l, Z.max_r by lia.
    destruct (gc_mark_from_region_post (mem w) fuel stack_top (stack_bottom w)
                (heap_start w) Hc) as (h' & -> & Hpost).
    exists h'. split; [reflexivity | exact Hpost].
Qed.

Lemma all_unmarked_shape_eq h h' i b :
  shape h' = shape h -> h !! i = Some b -> marked b = false ->
  exists b', h' !! i = Some b' /\ addr b' = addr b /\ size b' = size b /\
             set_marked false b' = b.
Proof.
  intros Hs Hb Hm.
  destruct (shape_lookup h h' i b (eq_sym Hs) Hb) as (b' & Hb' & Ha & Hz).
  exists b'. repeat split; try assumption.
  destruct b as [a mk z], b' as [a' mk' z']. simpl in *. subst. reflexivity.
Qed.

Lemma sweep_events_In p e :
  In e (sweep_events p) <->
  exists c, In c p /\ marked c = false /\
            (e = Output (size c) \/ e = SysFree (addr c)).
Proof.
  unfold sweep_events. rewrite in_flat_map. split.
  - intros (c & Hc & He). apply filter_In in Hc as [Hc Hm].
    exists c. split; [exact Hc |]. split; [destruct (marked c); [discriminate | reflexivity] |].
    destruct He as [<- | [<- | []]]; auto.
  - intros (c & Hc & Hm & He). exists c. split.
    + apply filter_In. split; [exact Hc |]. rewrite Hm. reflexivity.
    + destruct He as [-> | ->]; simpl; auto.
Qed.

Lemma In_lookup (h : registry) c : In c h -> exists k, h !! k = Some c.
Proof. intros H. apply list_elem_of_lookup, list_elem_of_In. exact H. Qed.

Lemma lookup_In (h : registry) k c : h !! k = Some c -> In c h.
Proof. intros H. apply list_elem_of_In, list_elem_of_lookup. exists k. exact H. Qed.

(** C1.  After a full collection cycle on a registry that satisfies the
    data-model invariant and carries no mark, with every scanned word
    clear of the headers, every Block reachable from the Root Region is
    still in the registry, with its mark bit clear and not freed; every
    Block that is not reachable is unlinked from the registry and
    released to the system allocator. *)
Theorem gc_collect_reclaims_unreached
    (sys_free_fill : list Event -> Z -> byte)
    (fuel : nat) (stack_top : Z) (w : World) :
  wf_registry (heap_start w) = true ->
  scans_clear (heap_start w)
              (root_lo stack_top w) (root_hi stack_top w) = true ->
  all_unmarked (heap_start w) ->
  (length (heap_start w) < fuel)%nat ->
  exists w' evs,
    gc_collect sys_free_fill fuel stack_top w = Some w' /\
    trace w' = trace w ++ evs /\
    forall i b, heap_start w !! i = Some b ->
      (reachable (mem w) (heap_start w)
                 (root_lo stack_top w) (root_hi stack_top w) i ->
         (exists k b', heap_start w' !! k = Some b' /\
                       addr b' = addr b /\ size b' = size b /\
                       marked b' = false) /\
         ~ In (SysFree (addr b)) evs) /\
      (~ reachable (mem w) (heap_start w)
                   (root_lo stack_top w) (root_hi stack_top w) i ->
         (forall b', In b' (heap_start w') -> addr b' <> addr b) /\
         In (SysFree (addr b)) evs).
Proof.
  intros Hwf _ Hun Hfuel.
  assert (Hcount : (unmarked_count (heap_start w) < fuel)%nat).
  { pose proof (unmarked_count_le_length (heap_start w)). lia. }
  destruct (gc_mark_post fuel stack_top w Hcount) as (h' & Hmark & Hpost).
  pose proof (marked_iff_reachable _ _ _ _ h' Hwf Hun Hpost) as Hiff.
  pose proof (post_extends _ _ _ _ Hpost) as [Hs _].
  exists (gc_sweep sys_free_fill (with_heap h' w)), (sweep_events h').
  unfold gc_collect. rewrite Hmark.
  split; [reflexivity |]. split; [apply gc_sweep_trace |].
  rewrite gc_sweep_heap. simpl heap_start.
  assert (Hinj : forall k c, h' !! k = Some c -> forall b i,
                   heap_start w !! i = Some b -> addr c = addr b -> k = i).
  { intros k c Hk b i Hb Ha.
    destruct (shape_lookup h' (heap_start w) k c Hs Hk) as (c0 & Hc0 & Ha0 & _).
    apply (wf_registry_addr_inj (heap_start w) k i c0 b Hwf Hc0 Hb). congruence. }
  intros i b Hb.
  assert (Hbm : marked b = false).
  { pose proof (all_unmarked_marked_at (heap_start w) i Hun) as H.
    rewrite (marked_at_lookup _ i b Hb) in H. exact H. }
  destruct (all_unmarked_shape_eq (heap_start w) h' i b Hs Hb Hbm)
    as (b' & Hb' & Ha & Hz & Hset).
  split.
  - intros Hreach. apply Hiff in Hreach.
    rewrite (marked_at_lookup h' i b' Hb') in Hreach.
    split.
    + assert (Hin : In b (map (set_marked false) (List.filter marked h'))).
      { rewrite <- Hset. apply in_map, filter_In.
        split; [exact (lookup_In h' i b' Hb') | exact Hreach]. }
      destruct (In_lookup _ b Hin) as (k & Hk).
      exists k, b. auto.
    + intros Hfree. apply sweep_events_In in Hfree as (c & Hc & Hcm & He).
      destruct He as [He | He]; [discriminate |]. injection He as He.
      destruct (In_lookup h' c Hc) as (k & Hk).
      assert (k = i) by (apply (Hinj k c Hk b i Hb); congruence). subst k.
      congruence.
  - intros Hnot.
    assert (Hm' : marked b' = false).
    { destruct (marked b') eqn:E; [| reflexivity]. exfalso. apply Hnot, Hiff.
      rewrite (marked_at_lookup h' i b' Hb'). exact E. }
    split.
    + intros c Hc Hac. apply in_map_iff in Hc as (c0 & <- & Hc0).
      apply filter_In in Hc0 as [Hc0 Hcm].
      destruct (In_lookup h' c0 Hc0) as (k & Hk).
      assert (k = i) by (apply (Hinj k c0 Hk b i Hb); exact Hac). subst k.
      congruence.
    + apply sweep_events_In. exists b'. split; [exact (lookup_In h' i b' Hb') |].
      split; [exact Hm' |]. right. congruence.
Qed.

(** In [ex_world] the 16-byte Block is reachable from the stack and
    survives the cycle. *)
Lemma gc_collect_reclaims_unreached_witness :
  exists w' k b',
    gc_collect ex_fill 4 4984 ex_world = Some w' /\
    heap_start w' !! k = Some b' /\ addr b' = 1000 /\ marked b' = false.
Proof.
  destruct (gc_collect_reclaims_unreached ex_fill 4 4984 ex_world)
    as (w' & evs & Hrun & _ & Hall).
  - reflexivity.
  - reflexivity.
  - repeat constructor.
  - simpl. lia.
  - destruct (Hall 1%nat (mkHeader 1000 false 16) eq_refl) as [Hlive _].
    destruct Hlive as [(k & b' & Hk & Ha & _ & Hm) _].
    + apply (reach_root _ _ _ _ 4984 1%nat).
      * exists 0. vm_compute. repeat split; discriminate.
      * exists (mkHeader 1000 false 16). split; [reflexivity |].
        vm_compute. split; [discriminate | reflexivity].
    + exists w', k, b'. auto.
Defined.

(** ** Blocks of size zero *)

Lemma target_not_empty h v j b :
  target h v = Some j -> h !! j = Some b -> size b = 0 -> False.
Proof.
  unfold target. destruct (v =? 0); [discriminate |]. intros Hg Hb Hz.
  destruct (get_header_Some h v j Hg) as (p & Hp & Hc).
  assert (p = b) by congruence. subst p.
  rewrite (contains_empty b v Hz) in Hc. discriminate.
Qed.

(** A run of marking never marks a Block of size zero. *)
Lemma mark_post_spares_empty m vs h h' i b :
  mark_post m vs h h' -> h !! i = Some b -> size b = 0 ->
  marked_at h i = false -> marked_at h' i = false.
Proof.
  intros [E T C W] Hb Hz Hm.
  destruct (marked_at h' i) eqn:Hm'; [| reflexivity]. exfalso.
  apply (W (fun x => x <> i)) with (x := i); try assumption; [| | reflexivity].
  - intros x y _ (c & v & _ & _ & Ht) ->. exact (target_not_empty h v i b Ht Hb Hz).
  - intros v j _ Ht ->. exact (target_not_empty h v i b Ht Hb Hz).
Qed.

(** C9.  A Block of size zero is never the result of the lookup,
    whatever the candidate; the mark phase leaves it unmarked; and a
    collection cycle unlinks and frees it, whatever the stack holds
    (a pointer to its data region included). *)
Theorem empty_block_always_collected
    (sys_free_fill : list Event -> Z -> byte)
    (fuel : nat) (stack_top : Z) (w : World) (i : nat) (b : ObjectHeader) :
  heap_start w !! i = Some b ->
  size b = 0 ->
  marked b = false ->
  (forall k c, heap_start w !! k = Some c -> addr c = addr b -> k = i) ->
  (unmarked_count (heap_start w) < fuel)%nat ->
  (forall ptr, get_header_from_data_ptr (heap_start w) ptr <> Some i) /\
  (exists w1, gc_mark fuel stack_top w = Some w1 /\
              marked_at (heap_start w1) i = false) /\
  (exists w' evs,
      gc_collect sys_free_fill fuel stack_top w = Some w' /\
      trace w' = trace w ++ evs /\
      (forall c, In c (heap_start w') -> addr c <> addr b) /\
      In (SysFree (addr b)) evs).
Proof.
  intros Hb Hz Hm Hinj Hc.
  destruct (gc_mark_post fuel stack_top w Hc) as (h' & Hmark & Hpost).
  assert (Hi' : marked_at h' i = false).
  { apply (mark_post_spares_empty _ _ _ h' i b Hpost Hb Hz).
    rewrite (marked_at_lookup _ i b Hb). exact Hm. }
  pose proof (post_extends _ _ _ _ Hpost) as [Hs _].
  destruct (shape_lookup _ h' i b (eq_sym Hs) Hb) as (b' & Hb' & Ha & _).
  rewrite (marked_at_lookup h' i b' Hb') in Hi'.
  split; [| split].
  - intros ptr Hg.
    destruct (get_header_Some _ ptr i Hg) as (p & Hp & Hcon).
    assert (p = b) by congruence. subst p.
    rewrite (contains_empty b ptr Hz) in Hcon. discriminate.
  - exists (with_heap h' w). split; [exact Hmark |].
    simpl. rewrite (marked_at_lookup h' i b' Hb'). exact Hi'.
  - exists (gc_sweep sys_free_fill (with_heap h' w)), (sweep_events h').
    unfold gc_collect. rewrite Hmark.
    split; [reflexivity |]. split; [apply gc_sweep_trace |].
    rewrite gc_sweep_heap. simpl heap_start. split.
    + intros c Hin Hac. apply in_map_iff in Hin as (c0 & <- & Hc0).
      apply filter_In in Hc0 as [Hc0 Hcm].
      destruct (In_lookup h' c0 Hc0) as (k & Hk).
      destruct (shape_lookup h' _ k c0 Hs Hk) as (c1 & Hc1 & Ha1 & _).
      assert (k = i) by (apply (Hinj k c1 Hc1); simpl in Hac; congruence).
      subst k. congruence.
    + apply sweep_events_In. exists b'.
      split; [exact (lookup_In h' i b' Hb') |]. split; [exact Hi' |].
      right. congruence.
Qed.

(** In [ex_world] the stack word at 4992 is the data pointer of the
    empty Block, and the cycle frees it all the same. *)
Lemma empty_block_always_collected_witness :
  load_word (mem ex_world) 4992 = obj_start (mkHeader 2000 false 0) /\
  exists w', gc_collect ex_fill 4 4984 ex_world = Some w' /\
             In (SysFree 2000) (trace w').
Proof.
  split; [reflexivity |].
  destruct (empty_block_always_collected ex_fill 4 4984 ex_world 0
              (mkHeader 2000 false 0))
    as (_ & _ & w' & evs & Hrun & Htr & _ & Hfree).
  - reflexivity.
  - reflexivity.
  - reflexivity.
  - intros k c. destruct k as [| [| [| k]]]; simpl; intros [= <-]; simpl;
      try reflexivity; discriminate.
  - unfold unmarked_count. simpl. lia.
  - exists w'. split; [exact Hrun |]. rewrite Htr. apply in_or_app. right.
    exact Hfree.
Defined.

(** ** The frame of the sweep *)

Lemma gc_sweep_loop_mem fill p :
  forall m t a,
    (forall c, In c p -> marked c = false -> in_chunk c a = false) ->
    (gc_sweep_loop fill p m t).1.2 a = m a.
Proof.
  induction p as [| c next IH]; intros m t a Hout; simpl; [reflexivity |].
  destruct (marked c) eqn:Hm.
  - specialize (IH m t a (fun d Hd => Hout d (or_intror Hd))).
    destruct (gc_sweep_loop fill next m t) as [[r m'] t']. exact IH.
  - rewrite IH by (intros d Hd; apply Hout; right; exact Hd).
    unfold release. rewrite (Hout c (or_introl eq_refl) Hm). reflexivity.
Qed.

Lemma gc_sweep_mem fill w a :
  (forall c, In c (heap_start w) -> marked c = false -> in_chunk c a = false) ->
  mem (gc_sweep fill w) a = mem w a.
Proof.
  intros H. unfold gc_sweep.
  rewrite <- (gc_sweep_loop_mem fill (heap_start w) (mem w) (trace w) a H).
  destruct (gc_sweep_loop fill (heap_start w) (mem w) (trace w)) as [[r m'] t'].
  reflexivity.
Qed.

Lemma chunks_apart_sym p q : chunks_apart p q = chunks_apart q p.
Proof. unfold chunks_apart. apply orb_comm. Qed.

Lemma wf_registry_distinct_apart h i k p q :
  wf_registry h = true -> i <> k -> h !! i = Some p -> h !! k = Some q ->
  chunks_apart p q = true.
Proof.
  intros Hwf Hne Hi Hk.
  destruct (Nat.lt_trichotomy i k) as [Hlt | [Heq | Hgt]]; [| contradiction |].
  - exact (wf_registry_apart h Hwf i k p q Hlt Hi Hk).
  - rewrite chunks_apart_sym. exact (wf_registry_apart h Hwf k i q p Hgt Hk Hi).
Qed.

(** The data of a Block lies outside the chunk of any other Block. *)
Lemma data_outside_other_chunk p q a :
  wf_header p = true -> wf_header q = true -> chunks_apart p q = true ->
  in_data_range p a -> in_chunk q a = false.
Proof.
  intros Hp Hq Hap Ha.
  destruct (wf_header_spec p Hp) as (? & ? & Sp & Ep & Lp).
  destruct (wf_header_spec q Hq) as (? & ? & Sq & Eq & Lq).
  unfold in_data_range in Ha. rewrite Sp in Ha.
  unfold chunks_apart in Hap. apply orb_true_iff in Hap. rewrite !Z.leb_le in Hap.
  unfold in_chunk, total_size.
  rewrite wrap_small by (rewrite Eq in Lq; unfold sizeof_ObjectHeader in *; lia).
  apply andb_false_iff. rewrite Z.leb_gt, Z.ltb_ge.
  unfold sizeof_ObjectHeader in *. lia.
Qed.

(** C10.  The sweep touches mark bits and links only: the registry after
    it is the chain of the marked Blocks in their former order, each
    with its address and size and only the mark bit cleared; the stack
    bound is kept; and on a registry that satisfies the data-model
    invariant every byte of the data region of a surviving Block is as
    it was. *)
Theorem gc_sweep_frame
    (sys_free_fill : list Event -> Z -> byte) (w : World) :
  wf_registry (heap_start w) = true ->
  heap_start (gc_sweep sys_free_fill w)
    = map (set_marked false) (List.filter marked (heap_start w)) /\
  shape (heap_start (gc_sweep sys_free_fill w))
    = shape (List.filter marked (heap_start w)) /\
  stack_bottom (gc_sweep sys_free_fill w) = stack_bottom w /\
  forall c a, In c (heap_start w) -> marked c = true -> in_data_range c a ->
              mem (gc_sweep sys_free_fill w) a = mem w a.
Proof.
  intros Hwf. split; [apply gc_sweep_heap |]. split; [| split].
  - rewrite gc_sweep_heap. unfold shape. rewrite map_map. reflexivity.
  - apply gc_sweep_stack_bottom.
  - intros c a Hc Hm Ha. apply gc_sweep_mem. intros d Hd Hdm.
    destruct (In_lookup _ c Hc) as (i & Hi).
    destruct (In_lookup _ d Hd) as (k & Hk).
    assert (Hne : i <> k) by (intros ->; congruence).
    apply (data_outside_other_chunk c d a).
    + exact (wf_registry_lookup _ i c Hwf Hi).
    + exact (wf_registry_lookup _ k d Hwf Hk).
    + exact (wf_registry_distinct_apart _ i k c d Hwf Hne Hi Hk).
    + exact Ha.
Qed.

(** A registry in which the mark phase has marked the 16-byte Block. *)
Definition ex_marked_world : World :=
  {| heap_start :=
       [ mkHeader 2000 false 0; mkHeader 1000 true 16; mkHeader 3000 false 12 ];
     stack_bottom := 5000; mem := ex_mem; trace := [] |}.

Lemma gc_sweep_frame_witness :
  heap_start (gc_sweep ex_fill ex_marked_world) = [ mkHeader 1000 false 16 ] /\
  load_word (mem (gc_sweep ex_fill ex_marked_world)) 1024 = 1024 /\
  mem (gc_sweep ex_fill ex_marked_world) 3024 = xff.
Proof.
  destruct (gc_sweep_frame ex_fill ex_marked_world) as (Hh & _ & _ & _).
  - reflexivity.
  - split; [rewrite Hh; reflexivity |]. split; reflexivity.
Defined.

(** ** The allocator *)

Lemma gc_collect_returns fill fuel stack_top w :
  (unmarked_count (heap_start w) < fuel)%nat ->
  exists h',
    gc_collect fill fuel stack_top w = Some (gc_sweep fill (with_heap h' w)) /\
    extends (heap_start w) h'.
Proof.
  intros Hc. destruct (gc_mark_post fuel stack_top w Hc) as (h' & Hmark & Hpost).
  exists h'. unfold gc_collect. rewrite Hmark.
  split; [reflexivity | exact (post_extends _ _ _ _ Hpost)].
Qed.

(** The two ways through [GC_malloc]. *)
Lemma GC_malloc_cases sys_malloc fill fuel stack_top sz w :
  (unmarked_count (heap_start w) < fuel)%nat ->
  let total := total_size sz in
  let r1 := sys_malloc (trace w) total in
  let w1 := emit (SysMalloc total r1) w in
  (r1 <> 0 /\
   GC_malloc sys_malloc fill fuel stack_top sz w = Some (install r1 sz w1)) \/
  (r1 = 0 /\
   exists w2,
     gc_collect fill fuel stack_top w1 = Some w2 /\
     let r2 := sys_malloc (trace w2) total in
     let w3 := emit (SysMalloc total r2) w2 in
     GC_malloc sys_malloc fill fuel stack_top sz w
     = Some (if r2 =? 0 then (0, w3) else install r2 sz w3)).
Proof.
  intros Hc total r1 w1. unfold GC_malloc, call_malloc.
  fold total. fold r1. fold w1.
  destruct (Z.eqb_spec r1 0) as [H0 | Hne]; [right | left; auto].
  split; [exact H0 |].
  destruct (gc_collect_returns fill fuel stack_top w1 Hc) as (h' & Hrun & _).
  exists (gc_sweep fill (with_heap h' w1)). split; [exact Hrun |].
  rewrite Hrun. cbv zeta.
  destruct (sys_malloc (trace (gc_sweep fill (with_heap h' w1))) total =? 0);
    reflexivity.
Qed.

Lemma all_unmarked_sweep fill w : all_unmarked (heap_start (gc_sweep fill w)).
Proof.
  rewrite gc_sweep_heap. unfold all_unmarked.
  apply Forall_forall. intros c Hc. apply list_elem_of_In in Hc.
  apply in_map_iff in Hc as (c0 & <- & _). reflexivity.
Qed.

Lemma gc_collect_heap fill fuel stack_top w w2 :
  gc_collect fill fuel stack_top w = Some w2 ->
  all_unmarked (heap_start w2) /\
  exists h', trace w2 = trace w ++ sweep_events h'.
Proof.
  unfold gc_collect. destruct (gc_mark fuel stack_top w) as [w1 |] eqn:Hm;
    [| discriminate].
  intros [= <-]. split; [apply all_unmarked_sweep |].
  exists (heap_start w1). rewrite gc_sweep_trace. f_equal.
  unfold gc_mark in Hm.
  destruct (if stack_top >? stack_bottom w
            then (stack_bottom w, stack_top)
            else (stack_top, stack_bottom w)) as [s e].
  destruct (gc_mark_from_region fuel (mem w) s e (heap_start w)); [| discriminate].
  injection Hm as <-. reflexivity.
Qed.

(** C6.  [GC_malloc] always returns (it never fails otherwise than by
    the null result), and with a system allocator whose blocks leave
    room for a header below the top of the address space: when the
    first [malloc] succeeds the result is not null and the state is the
    old one with the [malloc] event and the new Block, so no collection
    ran; when it fails, one collection cycle runs, [malloc] is asked
    once more and the result is null exactly when that second call
    fails too.  So the null result is returned if and only if the
    system allocator fails both before and after the cycle. *)
Theorem GC_malloc_out_of_memory
    (sys_malloc : list Event -> Z -> Z)
    (sys_free_fill : list Event -> Z -> byte)
    (fuel : nat) (stack_top : Z) (sz : Z) (w : World) :
  (unmarked_count (heap_start w) < fuel)%nat ->
  (forall t n, 0 <= sys_malloc t n < SIZE_MOD - sizeof_ObjectHeader) ->
  let total := total_size sz in
  let r1 := sys_malloc (trace w) total in
  let w1 := emit (SysMalloc total r1) w in
  exists p w',
    GC_malloc sys_malloc sys_free_fill fuel stack_top sz w = Some (p, w') /\
    (r1 <> 0 ->
       p <> 0 /\
       w' = with_heap (mkHeader r1 false sz :: heap_start w) w1) /\
    (r1 = 0 ->
       exists w2,
         gc_collect sys_free_fill fuel stack_top w1 = Some w2 /\
         let r2 := sys_malloc (trace w2) total in
         let w3 := emit (SysMalloc total r2) w2 in
         (p = 0 <-> r2 = 0) /\
         w' = if r2 =? 0 then w3
              else with_heap (mkHeader r2 false sz :: heap_start w2) w3) /\
    (p = 0 <->
       r1 = 0 /\
       exists w2, gc_collect sys_free_fill fuel stack_top w1 = Some w2 /\
                  sys_malloc (trace w2) total = 0).
Proof.
  intros Hc Hsane total r1 w1.
  assert (Hnz : forall t n, sys_malloc t n <> 0 ->
                            wrap (sys_malloc t n + sizeof_ObjectHeader) <> 0).
  { intros t n Hr. pose proof (Hsane t n) as Hb.
    rewrite wrap_small; unfold sizeof_ObjectHeader in *; lia. }
  destruct (GC_malloc_cases sys_malloc sys_free_fill fuel stack_top sz w Hc)
    as [[Hne Hrun] | [H0 (w2 & Hcol & Hrun)]];
    fold total in Hne || fold total in H0; fold total in Hrun.
  - fold r1 in Hne, Hrun. fold w1 in Hrun.
    exists (wrap (r1 + sizeof_ObjectHeader)),
           (with_heap (mkHeader r1 false sz :: heap_start w) w1).
    split; [exact Hrun |].
    assert (Hp : wrap (r1 + sizeof_ObjectHeader) <> 0) by (apply Hnz; exact Hne).
    split; [auto |]. split; [contradiction |].
    split; [contradiction | intros [H0 _]; contradiction].
  - fold r1 in H0. fold w1 in Hcol. cbv zeta in Hrun.
    set (r2 := sys_malloc (trace w2) total) in *.
    set (w3 := emit (SysMalloc total r2) w2) in *.
    destruct (Z.eqb_spec r2 0) as [H2 | H2].
    + exists 0, w3. split; [exact Hrun |].
      split; [intros Hne; contradiction |]. split.
      * intros _. exists w2. split; [exact Hcol |]. cbv zeta. fold r2. fold w3.
        destruct (Z.eqb_spec r2 0); [| contradiction]. tauto.
      * split; [| reflexivity]. intros _. split; [exact H0 |].
        exists w2. split; [exact Hcol | exact H2].
    + exists (wrap (r2 + sizeof_ObjectHeader)),
             (with_heap (mkHeader r2 false sz :: heap_start w2) w3).
      split; [exact Hrun |].
      assert (Hp : wrap (r2 + sizeof_ObjectHeader) <> 0) by (apply Hnz; exact H2).
      split; [intros Hne; contradiction |]. split.
      * intros _. exists w2. split; [exact Hcol |]. cbv zeta. fold r2. fold w3.
        destruct (Z.eqb_spec r2 0); [contradiction |]. tauto.
      * split; [intros Hz; contradiction |].
        intros [_ (w2' & Hcol' & Hz)].
        pose proof (eq_trans (eq_sym Hcol) Hcol') as Heq.
        injection Heq as <-. contradiction.
Qed.

Lemma ex_malloc_sane t n : 0 <= ex_malloc t n < SIZE_MOD - sizeof_ObjectHeader.
Proof.
  unfold ex_malloc. destruct (existsb _ t); vm_compute;
    (split; [discriminate | reflexivity]).
Qed.

(** In [ex_world] the first [malloc] fails, the cycle frees two Blocks
    and the second [malloc] succeeds. *)
Lemma GC_malloc_out_of_memory_witness :
  exists p w',
    GC_malloc ex_malloc ex_fill 4 4984 32 ex_world = Some (p, w') /\
    p = 7024 /\ length (heap_start w') = 2%nat.
Proof.
  destruct (GC_malloc_out_of_memory ex_malloc ex_fill 4 4984 32 ex_world)
    as (p & w' & Hrun & _).
  - unfold unmarked_count. simpl. lia.
  - exact ex_malloc_sane.
  - exists p, w'. split; [exact Hrun |].
    assert (Hval :
      option_map (fun r => (r.1, length (heap_start r.2)))
                 (GC_malloc ex_malloc ex_fill 4 4984 32 ex_world)
      = Some (7024, 2%nat)) by (vm_compute; reflexivity).
    rewrite Hrun in Hval. simpl in Hval. injection Hval as -> ->.
    split; reflexivity.
Defined.



Lemma sweep_events_no_malloc h n r : ~ In (SysMalloc n r) (sweep_events h).
Proof.
  intros H. apply sweep_events_In in H as (c & _ & _ & [H | H]); discriminate.
Qed.

(** C8.  Every request that [GC_malloc(size)] sends to the system
    allocator, the first one and the one after a collection, asks for
    [sizeof(ObjectHeader) + size] bytes computed modulo [2 ^ 64]; at
    least one request is sent. *)
Theorem GC_malloc_requests_total_size
    (sys_malloc : list Event -> Z -> Z)
    (sys_free_fill : list Event -> Z -> byte)
    (fuel : nat) (stack_top : Z) (sz : Z) (w : World) :
  (unmarked_count (heap_start w) < fuel)%nat ->
  exists p w' evs,
    GC_malloc sys_malloc sys_free_fill fuel stack_top sz w = Some (p, w') /\
    trace w' = trace w ++ evs /\
    (exists r rest,
        evs = SysMalloc ((sizeof_ObjectHeader + sz) mod 2 ^ 64) r :: rest) /\
    (forall n r, In (SysMalloc n r) evs ->
                 n = (sizeof_ObjectHeader + sz) mod 2 ^ 64).
Proof.
  intros Hc.
  change ((sizeof_ObjectHeader + sz) mod 2 ^ 64) with (total_size sz).
  destruct (GC_malloc_cases sys_malloc sys_free_fill fuel stack_top sz w Hc)
    as [[Hne Hrun] | [H0 (w2 & Hcol & Hrun)]].
  - eexists _, _, _. split; [exact Hrun |]. split; [reflexivity |]. split.
    + eexists _, _. reflexivity.
    + intros n r [[= <- _] | []]. reflexivity.
  - cbv zeta in Hrun.
    destruct (gc_collect_heap _ _ _ _ _ Hcol) as [_ (h' & Htr)]. simpl in Htr.
    set (r2 := sys_malloc (trace w2) (total_size sz)) in *.
    exists (if r2 =? 0 then 0 else wrap (r2 + sizeof_ObjectHeader)).
    exists (if r2 =? 0 then emit (SysMalloc (total_size sz) r2) w2
            else with_heap (mkHeader r2 false sz :: heap_start w2)
                           (emit (SysMalloc (total_size sz) r2) w2)).
    exists (SysMalloc (total_size sz) (sys_malloc (trace w) (total_size sz))
              :: sweep_events h' ++ [SysMalloc (total_size sz) r2]).
    split; [| split; [| split]].
    + rewrite Hrun. destruct (r2 =? 0); reflexivity.
    + assert (Ht : trace (emit (SysMalloc (total_size sz) r2) w2)
                   = trace w ++ SysMalloc (total_size sz)
                                  (sys_malloc (trace w) (total_size sz))
                       :: sweep_events h' ++ [SysMalloc (total_size sz) r2]).
      { simpl. rewrite Htr, <- !app_assoc. reflexivity. }
      destruct (r2 =? 0); exact Ht.
    + eexists _, _. reflexivity.
    + intros n r [[= <- _] | Hin]; [reflexivity |].
      apply in_app_or in Hin as [Hin | [[= <- _] | []]]; [| reflexivity].
      exfalso. exact (sweep_events_no_malloc h' n r Hin).
Qed.

(** A request whose size wraps: [GC_malloc(2^64 - 8)] asks the system
    allocator for 16 bytes. *)
Lemma GC_malloc_requests_total_size_witness :
  exists p w' evs,
    GC_malloc ex_malloc ex_fill 4 4984 (2 ^ 64 - 8) ex_world = Some (p, w') /\
    trace w' = trace ex_world ++ evs /\
    forall n r, In (SysMalloc n r) evs -> n = 16.
Proof.
  destruct (GC_malloc_requests_total_size ex_malloc ex_fill 4 4984 (2 ^ 64 - 8)
              ex_world) as (p & w' & evs & Hrun & Htr & _ & Hreq).
  - unfold unmarked_count. simpl. lia.
  - exists p, w', evs. split; [exact Hrun |]. split; [exact Htr |].
    intros n r Hin. rewrite (Hreq n r Hin). reflexivity.
Defined.

(** ** The data-model invariant is kept *)

Lemma wf_header_geometry p q :
  addr p = addr q -> size p = size q -> wf_header p = wf_header q.
Proof. intros Ha Hs. unfold wf_header. rewrite Ha, Hs. reflexivity. Qed.

Lemma chunks_apart_geometry p q p' q' :
  addr p = addr p' -> size p = size p' ->
  addr q = addr q' -> size q = size q' ->
  chunks_apart p q = chunks_apart p' q'.
Proof.
  intros Ha Hs Hb Ht. unfold chunks_apart. rewrite Ha, Hs, Hb, Ht. reflexivity.
Qed.

(** Well-formedness is a property of the geometry: marking keeps it. *)
Lemma wf_registry_shape h :
  forall h', shape h = shape h' -> wf_registry h = wf_registry h'.
Proof.
  induction h as [| a next IH]; intros [| b next']; simpl; try discriminate;
    [reflexivity |].
  intros [= Ha Hs Hn].
  rewrite (wf_header_geometry a b Ha Hs), (IH next' Hn). f_equal. f_equal.
  clear IH. revert next' Hn.
  induction next as [| c l IHl]; intros [| d l']; simpl; try discriminate;
    [reflexivity |].
  intros [= Hc Hd Hl].
  rewrite (chunks_apart_geometry a c b d Ha Hs Hc Hd), (IHl l' Hl). reflexivity.
Qed.

(** The sweep keeps it: the survivors are some of the former Blocks. *)
Lemma wf_registry_sweep h :
  wf_registry h = true ->
  wf_registry (map (set_marked false) (List.filter marked h)) = true.
Proof.
  induction h as [| a next IH]; intros Hwf; [reflexivity |].
  apply wf_registry_cons in Hwf as (Ha & Hap & Hn). simpl.
  destruct (marked a); [| exact (IH Hn)].
  simpl. rewrite (IH Hn), andb_true_r. apply andb_true_iff.
  split; [exact Ha |].
  apply forallb_forall. intros c Hc.
  apply in_map_iff in Hc as (c0 & <- & Hc0).
  apply filter_In in Hc0 as [Hc0 _]. exact (Hap c0 Hc0).
Qed.

(** The system allocator hands out [r] as a fresh chunk for a Block of
    [sz] bytes next to the registry [h]. *)
Definition fresh_chunk (r sz : Z) (h : registry) : bool :=
  wf_header (mkHeader r false sz)
  && forallb (chunks_apart (mkHeader r false sz)) h.

(** [GC_malloc] keeps the invariant as long as the system allocator
    hands out fresh chunks that hold a header and [sz] bytes. *)
Lemma GC_malloc_keeps_wf sys_malloc fill fuel stack_top sz w p w' :
  (unmarked_count (heap_start w) < fuel)%nat ->
  wf_registry (heap_start w) = true ->
  (forall r, r = sys_malloc (trace w) (total_size sz) -> r <> 0 ->
             fresh_chunk r sz (heap_start w) = true) ->
  (forall w2 r,
      gc_collect fill fuel stack_top
        (emit (SysMalloc (total_size sz) (sys_malloc (trace w) (total_size sz))) w)
      = Some w2 ->
      r = sys_malloc (trace w2) (total_size sz) -> r <> 0 ->
      fresh_chunk r sz (heap_start w2) = true) ->
  GC_malloc sys_malloc fill fuel stack_top sz w = Some (p, w') ->
  wf_registry (heap_start w') = true.
Proof.
  intros Hc Hwf Hf1 Hf2 Hrun.
  destruct (GC_malloc_cases sys_malloc fill fuel stack_top sz w Hc)
    as [[Hne Hrun1] | [H0 (w2 & Hcol & Hrun2)]].
  - rewrite Hrun1 in Hrun. injection Hrun as _ <-. simpl.
    specialize (Hf1 _ eq_refl Hne). unfold fresh_chunk in Hf1.
    rewrite Hf1, Hwf. reflexivity.
  - cbv zeta in Hrun2. rewrite Hrun2 in Hrun.
    assert (Hwf2 : wf_registry (heap_start w2) = true).
    { destruct (gc_collect_returns fill fuel stack_top
                  (emit (SysMalloc (total_size sz)
                           (sys_malloc (trace w) (total_size sz))) w) Hc)
        as (h' & Hrun' & [Hs _]).
      pose proof (eq_trans (eq_sym Hrun') Hcol) as Heq. injection Heq as <-.
      rewrite gc_sweep_heap. apply wf_registry_sweep. simpl.
      rewrite (wf_registry_shape h' (heap_start w) Hs). exact Hwf. }
    destruct (Z.eqb_spec (sys_malloc (trace w2) (total_size sz)) 0) as [H2 | H2].
    + injection Hrun as _ <-. exact Hwf2.
    + injection Hrun as _ <-. simpl.
      specialize (Hf2 w2 _ Hcol eq_refl H2). unfold fresh_chunk in Hf2.
      rewrite Hf2, Hwf2. reflexivity.
Qed.

(** ** More on the lookup *)

(** X1.  [get_header_from_data_ptr] returns position [i] exactly when
    the node at [i] passes the containment test and no node before it
    in the chain does: among overlapping ranges the newest Block
    wins. *)
Theorem get_header_first_match (h : registry) (ptr : Z) (i : nat) :
  get_header_from_data_ptr h ptr = Some i <->
  (exists p, h !! i = Some p /\ contains p ptr = true) /\
  (forall j q, (j < i)%nat -> h !! j = Some q -> contains q ptr = false).
Proof.
  revert i. induction h as [| a next IH]; intros i.
  - simpl. split; [discriminate |]. intros [(p & Hp & _) _].
    rewrite lookup_nil in Hp. discriminate.
  - rewrite get_header_cons. destruct (contains a ptr) eqn:Hc.
    + split.
      * intros [= <-]. split; [exists a; auto |]. intros j q Hj. lia.
      * intros [(p & Hp & Hcp) Hfirst]. destruct i as [| i]; [reflexivity |].
        rewrite (Hfirst O a) in Hc by (simpl; auto; lia). discriminate.
    + split.
      * destruct (get_header_from_data_ptr next ptr) as [k |] eqn:Hg;
          simpl; [| discriminate].
        intros [= <-]. destruct (IH k) as [[Hex Hfirst] _]; [reflexivity |].
        split; [exact Hex |]. intros [| j] q Hj; simpl.
        -- intros [= <-]. exact Hc.
        -- apply Hfirst. lia.
      * intros [(p & Hp & Hcp) Hfirst]. destruct i as [| i]; simpl in Hp.
        -- injection Hp as <-. congruence.
        -- destruct (IH i) as [_ Hback]. rewrite Hback; [reflexivity |].
           split; [exists p; auto |]. intros j q Hj Hq.
           apply (Hfirst (S j) q); [lia | exact Hq].
Qed.

(** X2.  A pointer returned by [GC_malloc] is found again: when the
    system allocator hands out chunks that hold a header and [sz] bytes
    inside the address space, every address of the [sz] bytes behind a
    non-null result leads the lookup to the head of the registry, which
    is the new Block, unmarked, of size [sz] and with that data
    pointer. *)
Theorem GC_malloc_then_lookup
    (sys_malloc : list Event -> Z -> Z)
    (sys_free_fill : list Event -> Z -> byte)
    (fuel : nat) (stack_top : Z) (sz : Z) (w : World) (p : Z) (w' : World) :
  (unmarked_count (heap_start w) < fuel)%nat ->
  (forall t, sys_malloc t (total_size sz) <> 0 ->
             wf_header (mkHeader (sys_malloc t (total_size sz)) false sz) = true) ->
  GC_malloc sys_malloc sys_free_fill fuel stack_top sz w = Some (p, w') ->
  p <> 0 ->
  (exists b, heap_start w' !! O = Some b /\
             size b = sz /\ marked b = false /\ obj_start b = p) /\
  (forall o, 0 <= o < sz ->
             get_header_from_data_ptr (heap_start w') (p + o) = Some O).
Proof.
  intros Hc Hchunk Hrun Hp.
  assert (Hnew : exists t rest,
             sys_malloc t (total_size sz) <> 0 /\
             p = wrap (sys_malloc t (total_size sz) + sizeof_ObjectHeader) /\
             heap_start w'
             = mkHeader (sys_malloc t (total_size sz)) false sz :: rest).
  { destruct (GC_malloc_cases sys_malloc sys_free_fill fuel stack_top sz w Hc)
      as [[Hne Hrun1] | [H0 (w2 & Hcol & Hrun2)]].
    - rewrite Hrun1 in Hrun. injection Hrun as <- <-.
      exists (trace w), (heap_start w). auto.
    - cbv zeta in Hrun2. rewrite Hrun2 in Hrun.
      destruct (Z.eqb_spec (sys_malloc (trace w2) (total_size sz)) 0) as [H2 | H2].
      + injection Hrun as <- _. contradiction.
      + injection Hrun as <- <-. exists (trace w2), (heap_start w2). auto. }
  destruct Hnew as (t & rest & Hne & -> & ->).
  set (b := mkHeader (sys_malloc t (total_size sz)) false sz).
  pose proof (Hchunk t Hne) as Hwf. fold b in Hwf.
  split.
  - exists b. repeat split; reflexivity.
  - intros o Ho. rewrite get_header_cons.
    destruct (wf_contains b (obj_start b + o) Hwf) as [_ Hin].
    change (wrap (sys_malloc t (total_size sz) + sizeof_ObjectHeader))
      with (obj_start b).
    rewrite Hin; [reflexivity |]. unfold in_data_range. simpl size. lia.
Qed.

Lemma ex_malloc_chunk t :
  ex_malloc t (total_size 32) <> 0 ->
  wf_header (mkHeader (ex_malloc t (total_size 32)) false 32) = true.
Proof.
  unfold ex_malloc. destruct (existsb _ t); [reflexivity |].
  intros H. exfalso. apply H. reflexivity.
Qed.

Lemma GC_malloc_then_lookup_witness :
  exists p w',
    GC_malloc ex_malloc ex_fill 4 4984 32 ex_world = Some (p, w') /\
    get_header_from_data_ptr (heap_start w') (p + 31) = Some O.
Proof.
  assert (Hval :
    option_map fst (GC_malloc ex_malloc ex_fill 4 4984 32 ex_world)
    = Some 7024) by (vm_compute; reflexivity).
  destruct (GC_malloc ex_malloc ex_fill 4 4984 32 ex_world)
    as [[p w'] |] eqn:Hrun; [| discriminate Hval].
  simpl in Hval. injection Hval as Hp.
  exists p, w'. split; [reflexivity |].
  apply (GC_malloc_then_lookup ex_malloc ex_fill 4 4984 32 ex_world p w').
  - unfold unmarked_count. simpl. lia.
  - exact ex_malloc_chunk.
  - exact Hrun.
  - rewrite Hp. discriminate.
  - lia.
Defined.

(** ** More on the mark phase *)

Lemma gc_mark_from_region_fuel m fuel fuel' start end_ h h' :
  (fuel <= fuel')%nat ->
  gc_mark_from_region fuel m start end_ h = Some h' ->
  gc_mark_from_region fuel' m start end_ h = Some h'.
Proof.
  intros Hle. unfold gc_mark_from_region.
  apply gc_mark_from_region_loop_mono.
  intros q g g'. apply gc_mark_object_fuel. exact Hle.
Qed.

(** Whatever fuel a scan returned with, its result is the one
    described by [mark_post]. *)
Lemma gc_mark_from_region_result m fuel start end_ h h' :
  gc_mark_from_region fuel m start end_ h = Some h' ->
  mark_post m (candidates m start end_) h h'.
Proof.
  intros Hrun.
  set (big := Nat.max fuel (S (unmarked_count h))).
  assert (Hbig : gc_mark_from_region big m start end_ h = Some h').
  { apply (gc_mark_from_region_fuel m fuel big); [unfold big; lia | exact Hrun]. }
  destruct (gc_mark_from_region_post m big start end_ h) as (h2 & Hrun2 & Hpost);
    [unfold big; lia |].
  rewrite Hbig in Hrun2. injection Hrun2 as <-. exact Hpost.
Qed.

Lemma gc_mark_object_result m fuel ptr h h' :
  gc_mark_object fuel m ptr h = Some h' -> mark_post m [ptr] h h'.
Proof.
  intros Hrun.
  set (big := Nat.max fuel (S (unmarked_count h))).
  assert (Hbig : gc_mark_object big m ptr h = Some h').
  { apply (gc_mark_object_fuel m fuel big); [unfold big; lia | exact Hrun]. }
  destruct (gc_mark_object_post m big ptr h) as (h2 & Hrun2 & Hpost);
    [unfold big; lia |].
  rewrite Hbig in Hrun2. injection Hrun2 as <-. exact Hpost.
Qed.

Lemma trip_count_empty start end_ : end_ <= start -> trip_count start end_ = O.
Proof.
  intros H. unfold trip_count, sizeof_ptr.
  assert (Hq : (end_ - start + (8 - 1)) / 8 <= 0).
  { assert (Hlt : (end_ - start + (8 - 1)) / 8 < 1).
    { apply Z.div_lt_upper_bound; lia. }
    lia. }
  destruct ((end_ - start + (8 - 1)) / 8); try reflexivity; lia.
Qed.

(** X3.  [gc_mark_from_region] over an empty or reversed region
    ([end <= start]) reads no word and returns the registry as it is,
    whatever the recursion bound. *)
Theorem gc_mark_from_region_empty (fuel : nat) (m : memory)
    (start end_ : Z) (h : registry) :
  end_ <= start ->
  gc_mark_from_region fuel m start end_ h = Some h.
Proof.
  intros H. unfold gc_mark_from_region.
  rewrite (trip_count_empty start end_ H). reflexivity.
Qed.

Lemma gc_mark_from_region_empty_witness :
  gc_mark_from_region 0 ex_mem 5000 4984 ex_heap = Some ex_heap.
Proof.
  apply gc_mark_from_region_empty. lia.
Defined.

(** X4.  A scan of a region marks what its words point to: on a
    registry that satisfies the data-model invariant, when every word
    read, in the region and in the data of the Blocks, is clear of the
    headers, with a recursion bound above the number of unmarked Blocks
    [gc_mark_from_region] returns a registry of the same geometry that
    keeps every former mark, and for every word position of the region
    the Block that the lookup finds for the (non-null) word stored
    there is marked. *)
Theorem gc_mark_from_region_marks_targets (fuel : nat) (m : memory)
    (start end_ : Z) (h : registry) :
  wf_registry h = true ->
  scan_clear h start end_ = true ->
  data_scans_clear h = true ->
  (unmarked_count h < fuel)%nat ->
  exists h',
    gc_mark_from_region fuel m start end_ h = Some h' /\
    extends h h' /\
    forall p j,
      region_word start end_ p ->
      load_word m p <> 0 ->
      get_header_from_data_ptr h (load_word m p) = Some j ->
      marked_at h' j = true.
Proof.
  intros _ _ _ Hc.
  destruct (gc_mark_from_region_post m fuel start end_ h Hc)
    as (h' & Hrun & [E T _ _]).
  exists h'. split; [exact Hrun |]. split; [exact E |].
  intros p j Hp Hnz Hj. apply (T (load_word m p) j).
  - unfold candidates. apply in_map. apply scanned_region_word. exact Hp.
  - unfold target. destruct (Z.eqb_spec (load_word m p) 0); [contradiction | exact Hj].
Qed.

Lemma gc_mark_from_region_marks_targets_witness :
  exists h', gc_mark_from_region 4 ex_mem 4984 5000 ex_heap = Some h' /\
             marked_at h' 1 = true.
Proof.
  destruct (gc_mark_from_region_marks_targets 4 ex_mem 4984 5000 ex_heap)
    as (h' & Hrun & _ & Hmarks).
  - reflexivity.
  - reflexivity.
  - reflexivity.
  - unfold unmarked_count. simpl. lia.
  - exists h'. split; [exact Hrun |].
    apply (Hmarks 4984 1%nat).
    + exists 0. vm_compute. repeat split; discriminate.
    + vm_compute. discriminate.
    + reflexivity.
Defined.

(** The loop of [gc_mark_from_region] as a run over the positions it
    visits. *)
Fixpoint mark_all (mark_object : Z -> registry -> option registry)
    (m : memory) (ps : list Z) (h : registry) : option registry :=
  match ps with
  | [] => Some h
  | p :: rest =>
      match mark_object (load_word m p) h with
      | Some h' => mark_all mark_object m rest h'
      | None => None
      end
  end.

Lemma gc_mark_from_region_loop_mark_all f m n :
  forall p end_ h,
    gc_mark_from_region_loop f m n p end_ h
    = mark_all f m (loop_positions n p end_) h.
Proof.
  induction n as [| n IH]; intros p end_ h; simpl; [reflexivity |].
  destruct (p <? end_); [| reflexivity]. simpl.
  destruct (f (load_word m p) h); [apply IH | reflexivity].
Qed.

Lemma mark_all_app f m ps qs h :
  mark_all f m (ps ++ qs) h =
  match mark_all f m ps h with
  | Some h' => mark_all f m qs h'
  | None => None
  end.
Proof.
  revert h. induction ps as [| p ps IH]; intros h; simpl; [reflexivity |].
  destruct (f (load_word m p) h); [apply IH | reflexivity].
Qed.

Lemma scanned_step start end_ :
  start < end_ -> scanned start end_ = start :: scanned (start + sizeof_ptr) end_.
Proof.
  intros Hlt. unfold scanned, trip_count, sizeof_ptr.
  replace (end_ - start + (8 - 1)) with (end_ - (start + 8) + (8 - 1) + 1 * 8) by lia.
  rewrite Z.div_add by lia.
  assert (Hq : 0 <= (end_ - (start + 8) + (8 - 1)) / 8).
  { apply Z.div_pos; lia. }
  rewrite Z2Nat.inj_add by lia.
  rewrite Nat.add_comm. simpl.
  destruct (Z.ltb_spec start end_); [reflexivity | lia].
Qed.

Lemma scanned_split (k : nat) :
  forall start end_,
    start + sizeof_ptr * Z.of_nat k <= end_ ->
    scanned start end_
    = scanned start (start + sizeof_ptr * Z.of_nat k)
      ++ scanned (start + sizeof_ptr * Z.of_nat k) end_.
Proof.
  unfold sizeof_ptr.
  induction k as [| k IH]; intros start end_ Hle.
  - replace (start + 8 * Z.of_nat 0) with start by lia.
    unfold scanned at 2. rewrite trip_count_empty by lia. reflexivity.
  - rewrite (scanned_step start end_) by lia.
    rewrite (scanned_step start (start + 8 * Z.of_nat (S k))) by lia.
    unfold sizeof_ptr.
    replace (start + 8 * Z.of_nat (S k)) with (start + 8 + 8 * Z.of_nat k) by lia.
    rewrite (IH (start + 8) end_) by lia. reflexivity.
Qed.

(** X5.  Scans compose: for a cut [mid] that lies a whole number of
    words above [start] and not above [end], scanning [start .. end]
    is scanning [start .. mid] and then [mid .. end] on the registry
    the first scan left (and fails when one of them hits the recursion
    bound). *)
Theorem gc_mark_from_region_split (fuel : nat) (m : memory)
    (start mid end_ : Z) (h : registry) :
  start <= mid <= end_ ->
  (mid - start) mod sizeof_ptr = 0 ->
  gc_mark_from_region fuel m start end_ h =
  match gc_mark_from_region fuel m start mid h with
  | Some h' => gc_mark_from_region fuel m mid end_ h'
  | None => None
  end.
Proof.
  intros Hord Hdiv. unfold gc_mark_from_region.
  rewrite !gc_mark_from_region_loop_mark_all. fold (scanned start end_).
  fold (scanned start mid). fold (scanned mid end_).
  assert (Hmid : mid = start + sizeof_ptr * Z.of_nat (Z.to_nat ((mid - start) / sizeof_ptr))).
  { unfold sizeof_ptr in *. rewrite Z2Nat.id by (apply Z.div_pos; lia).
    pose proof (Z.div_mod (mid - start) 8). lia. }
  rewrite (scanned_split (Z.to_nat ((mid - start) / sizeof_ptr)) start end_)
    by (rewrite <- Hmid; lia).
  rewrite <- Hmid, mark_all_app.
  destruct (mark_all (gc_mark_object fuel m) m (scanned start mid) h);
    [| reflexivity].
  rewrite gc_mark_from_region_loop_mark_all. reflexivity.
Qed.

Lemma gc_mark_from_region_split_witness :
  gc_mark_from_region 4 ex_mem 4984 5000 ex_heap =
  match gc_mark_from_region 4 ex_mem 4984 4992 ex_heap with
  | Some h' => gc_mark_from_region 4 ex_mem 4992 5000 h'
  | None => None
  end.
Proof.
  apply gc_mark_from_region_split.
  - lia.
  - reflexivity.
Defined.

(** X6.  The mark phase changes mark bits only, and only by setting
    them: when [gc_mark] returns, the memory, the event history and
    [stack_bottom] are as before, the registry has the same Blocks at
    the same places with the same addresses and sizes, and every Block
    that was marked still is. *)
Theorem gc_mark_frame (fuel : nat) (stack_top : Z) (w w' : World) :
  gc_mark fuel stack_top w = Some w' ->
  mem w' = mem w /\ trace w' = trace w /\ stack_bottom w' = stack_bottom w /\
  shape (heap_start w') = shape (heap_start w) /\
  (forall i, marked_at (heap_start w) i = true ->
             marked_at (heap_start w') i = true).
Proof.
  unfold gc_mark.
  destruct (if stack_top >? stack_bottom w
            then (stack_bottom w, stack_top)
            else (stack_top, stack_bottom w)) as [s e].
  destruct (gc_mark_from_region fuel (mem w) s e (heap_start w)) as [h' |] eqn:Hrun;
    [| discriminate].
  intros [= <-]. simpl.
  destruct (post_extends _ _ _ _ (gc_mark_from_region_result _ _ _ _ _ _ Hrun))
    as [Hs Hm].
  auto.
Qed.

Lemma gc_mark_frame_witness :
  exists w', gc_mark 4 4984 ex_world = Some w' /\
             shape (heap_start w') = shape (heap_start ex_world).
Proof.
  destruct (gc_mark 4 4984 ex_world) as [w' |] eqn:Hrun.
  - exists w'. split; [reflexivity |].
    destruct (gc_mark_frame 4 4984 ex_world w' Hrun) as (_ & _ & _ & Hs & _).
    exact Hs.
  - vm_compute in Hrun. discriminate Hrun.
Defined.

(** X7.  The direction of stack growth does not matter: the mark phase
    run with the recorded bound [a] and the current position [b] leaves
    the same registry as the one run with bound [b] and position [a]. *)
Theorem gc_mark_direction (fuel : nat) (a b : Z) (w : World) :
  option_map heap_start (gc_mark fuel a (GC_init b w))
  = option_map heap_start (gc_mark fuel b (GC_init a w)).
Proof.
  unfold gc_mark, GC_init. simpl. rewrite !Z.gtb_ltb.
  destruct (Z.ltb_spec b a) as [H1 | H1], (Z.ltb_spec a b) as [H2 | H2];
    try lia.
  - destruct (gc_mark_from_region fuel (mem w) b a (heap_start w)); reflexivity.
  - destruct (gc_mark_from_region fuel (mem w) a b (heap_start w)); reflexivity.
  - assert (a = b) by lia. subst b.
    destruct (gc_mark_from_region fuel (mem w) a a (heap_start w)); reflexivity.
Qed.

(** Node [x] is reached from node [i] along words stored in Block
    data. *)
Inductive reaches (m : memory) (h : registry) : nat -> nat -> Prop :=
  | reaches_refl i : reaches m h i i
  | reaches_step i j k : reaches m h i j -> edge m h j k -> reaches m h i k.

(** X8.  On a registry that satisfies the data-model invariant,
    carries no mark and in which every word read from the data of a
    Block is clear of the headers, [gc_mark_object] marks the Block its
    candidate leads to and the Blocks reached from it through the words
    of Block data, and no other Block. *)
Theorem gc_mark_object_marks_reachable (m : memory) (ptr : Z) (h : registry)
    (fuel : nat) :
  wf_registry h = true ->
  data_scans_clear h = true ->
  all_unmarked h ->
  (unmarked_count h < fuel)%nat ->
  exists h',
    gc_mark_object fuel m ptr h = Some h' /\
    forall x, marked_at h' x = true <->
              exists i, target h ptr = Some i /\ reaches m h i x.
Proof.
  intros _ _ Hun Hc.
  destruct (gc_mark_object_post m fuel ptr h Hc) as (h' & Hrun & [E T C W]).
  exists h'. split; [exact Hrun |]. intros x. split.
  - intros Hx.
    apply (W (fun y => exists i, target h ptr = Some i /\ reaches m h i y));
      [| | apply all_unmarked_marked_at; exact Hun | exact Hx].
    + intros a b (i & Hi & Ha) He. exists i. split; [exact Hi |].
      exact (reaches_step m h i a b Ha He).
    + intros v j [<- | []] Hj. exists j. split; [exact Hj | apply reaches_refl].
  - intros (i & Hi & Hreach). induction Hreach as [i | i j k Hij IH Hjk].
    + apply (T ptr i); [left; reflexivity | exact Hi].
    + apply (C j k); [apply all_unmarked_marked_at; exact Hun | exact (IH Hi) | exact Hjk].
Qed.

Lemma gc_mark_object_marks_reachable_witness :
  exists h', gc_mark_object 4 ex_mem 1030 ex_heap = Some h' /\
             marked_at h' 1 = true.
Proof.
  destruct (gc_mark_object_marks_reachable ex_mem 1030 ex_heap 4)
    as (h' & Hrun & Hiff).
  - reflexivity.
  - reflexivity.
  - repeat constructor.
  - unfold unmarked_count. simpl. lia.
  - exists h'. split; [exact Hrun |]. apply Hiff.
    exists 1%nat. split; [reflexivity | apply reaches_refl].
Defined.

(** X9.  Interior pointers keep a Block: on a registry that satisfies
    the data-model invariant, [gc_mark_object] called with any address
    inside the data of Block [B] leaves [B] marked. *)
Theorem interior_pointer_marks_block (m : memory) (h : registry) (i : nat)
    (B : ObjectHeader) (o : Z) (fuel : nat) :
  wf_registry h = true ->
  h !! i = Some B ->
  0 <= o < size B ->
  (unmarked_count h < fuel)%nat ->
  exists h', gc_mark_object fuel m (obj_start B + o) h = Some h' /\
             marked_at h' i = true.
Proof.
  intros Hwf HB Ho Hc.
  destruct (gc_mark_object_post m fuel (obj_start B + o) h Hc)
    as (h' & Hrun & [_ T _ _]).
  exists h'. split; [exact Hrun |].
  apply (T (obj_start B + o) i); [left; reflexivity |].
  apply (wf_target h _ i Hwf). exists B. split; [exact HB |].
  unfold in_data_range. lia.
Qed.

Lemma interior_pointer_marks_block_witness :
  exists h', gc_mark_object 4 ex_mem (obj_start (mkHeader 3000 false 12) + 11)
               ex_heap = Some h' /\
             marked_at h' 2 = true.
Proof.
  apply (interior_pointer_marks_block ex_mem ex_heap 2 (mkHeader 3000 false 12) 11 4).
  - reflexivity.
  - reflexivity.
  - simpl. lia.
  - unfold unmarked_count. simpl. lia.
Defined.

(** ** More on the sweep *)

Lemma filter_marked_none (h : registry) :
  all_unmarked h ->
  List.filter marked h = [] /\
  List.filter (fun c => negb (marked c)) h = h.
Proof.
  unfold all_unmarked. induction h as [| a next IH]; intros Hun; simpl;
    [split; reflexivity |].
  apply Forall_cons in Hun as [Ha Hn]. destruct (IH Hn) as [E1 E2].
  rewrite Ha. simpl. rewrite E1, E2. split; reflexivity.
Qed.

Lemma filter_marked_all (h : registry) :
  Forall (fun c => marked c = true) h ->
  List.filter marked h = h /\
  List.filter (fun c => negb (marked c)) h = [].
Proof.
  induction h as [| a next IH]; intros Hall; simpl; [split; reflexivity |].
  apply Forall_cons in Hall as [Ha Hn]. destruct (IH Hn) as [E1 E2].
  rewrite Ha. simpl. rewrite E1, E2. split; reflexivity.
Qed.

(** X10.  A sweep that no mark phase came before frees everything: on a
    registry without marks [gc_sweep] leaves the registry empty and,
    for each Block in chain order, prints its size and frees its
    header. *)
Theorem gc_sweep_without_marks
    (sys_free_fill : list Event -> Z -> byte) (w : World) :
  all_unmarked (heap_start w) ->
  heap_start (gc_sweep sys_free_fill w) = [] /\
  trace (gc_sweep sys_free_fill w)
  = trace w ++ flat_map (fun c => [Output (size c); SysFree (addr c)])
                        (heap_start w).
Proof.
  intros Hun. destruct (filter_marked_none _ Hun) as [E1 E2].
  rewrite gc_sweep_heap, gc_sweep_trace. unfold sweep_events.
  rewrite E1, E2. split; reflexivity.
Qed.

Lemma gc_sweep_without_marks_witness :
  heap_start (gc_sweep ex_fill ex_world) = [] /\
  trace (gc_sweep ex_fill ex_world)
  = [Output 0; SysFree 2000; Output 16; SysFree 1000; Output 12; SysFree 3000].
Proof.
  destruct (gc_sweep_without_marks ex_fill ex_world) as [Hh Ht].
  - repeat constructor.
  - split; [exact Hh | rewrite Ht; reflexivity].
Defined.

(** X11.  Two sweeps in a row leave no Block: the first one clears the
    marks of what it keeps, so the second one frees all of it. *)
Theorem gc_sweep_twice_empties
    (sys_free_fill : list Event -> Z -> byte) (w : World) :
  heap_start (gc_sweep sys_free_fill (gc_sweep sys_free_fill w)) = [].
Proof.
  rewrite gc_sweep_heap.
  destruct (filter_marked_none _ (all_unmarked_sweep sys_free_fill w)) as [E _].
  rewrite E. reflexivity.
Qed.

(** X12.  What a sweep does to the outside, and that it loses no Block:
    the events it adds are, for each unmarked Block in chain order, the
    printed size followed by the [free] of the header, and nothing
    else; the Blocks kept and the Blocks freed add up to the Blocks
    there were. *)
Theorem gc_sweep_events
    (sys_free_fill : list Event -> Z -> byte) (w : World) :
  trace (gc_sweep sys_free_fill w)
  = trace w ++ flat_map (fun c => [Output (size c); SysFree (addr c)])
                 (List.filter (fun c => negb (marked c)) (heap_start w)) /\
  (length (heap_start (gc_sweep sys_free_fill w))
   + length (List.filter (fun c => negb (marked c)) (heap_start w))
   = length (heap_start w))%nat.
Proof.
  split; [apply gc_sweep_trace |].
  rewrite gc_sweep_heap, length_map.
  induction (heap_start w) as [| a next IH]; simpl; [reflexivity |].
  destruct (marked a); simpl; lia.
Qed.

(** X13.  A sweep over a registry in which every Block is marked frees
    nothing: the event history and every byte of memory are as before,
    and the registry keeps all its Blocks, with the marks cleared. *)
Theorem gc_sweep_all_marked
    (sys_free_fill : list Event -> Z -> byte) (w : World) :
  Forall (fun c => marked c = true) (heap_start w) ->
  trace (gc_sweep sys_free_fill w) = trace w /\
  (forall a, mem (gc_sweep sys_free_fill w) a = mem w a) /\
  heap_start (gc_sweep sys_free_fill w)
  = map (set_marked false) (heap_start w).
Proof.
  intros Hall. destruct (filter_marked_all _ Hall) as [E1 E2].
  split; [| split].
  - rewrite gc_sweep_trace. unfold sweep_events. rewrite E2. apply app_nil_r.
  - intros a. apply gc_sweep_mem. intros c Hc Hm.
    rewrite Forall_forall in Hall. apply list_elem_of_In in Hc.
    rewrite (Hall c Hc) in Hm. discriminate.
  - rewrite gc_sweep_heap, E1. reflexivity.
Qed.

Lemma gc_sweep_all_marked_witness :
  heap_start (gc_sweep ex_fill
                (with_heap [mkHeader 1000 true 16; mkHeader 3000 true 12] ex_world))
  = [mkHeader 1000 false 16; mkHeader 3000 false 12].
Proof.
  destruct (gc_sweep_all_marked ex_fill
              (with_heap [mkHeader 1000 true 16; mkHeader 3000 true 12] ex_world))
    as (_ & _ & Hh).
  - repeat constructor.
  - rewrite Hh. reflexivity.
Defined.

(** The addresses passed to [free] in a run of events, in order. *)
Definition freed_addresses (evs : list Event) : list Z :=
  flat_map (fun e => match e with SysFree p => [p] | _ => [] end) evs.

Lemma freed_addresses_sweep h :
  freed_addresses (sweep_events h)
  = map addr (List.filter (fun c => negb (marked c)) h).
Proof.
  unfold freed_addresses, sweep_events.
  induction (List.filter (fun c => negb (marked c)) h) as [| a l IH]; simpl;
    [reflexivity |].
  rewrite IH. reflexivity.
Qed.

Lemma wf_registry_tail_addr a next c :
  wf_registry (a :: next) = true -> In c next -> addr c <> addr a.
Proof.
  intros Hwf Hc. destruct (In_lookup next c Hc) as (k & Hk).
  intros Heq.
  assert (H : S k = O).
  { apply (wf_registry_addr_inj (a :: next) (S k) O c a Hwf); auto. }
  discriminate H.
Qed.

Lemma freed_addresses_NoDup h :
  wf_registry h = true ->
  List.NoDup (map addr (List.filter (fun c => negb (marked c)) h)).
Proof.
  induction h as [| a next IH]; intros Hwf; simpl; [constructor |].
  pose proof Hwf as Hwf'. apply wf_registry_cons in Hwf' as (_ & _ & Hn).
  destruct (marked a); simpl; [exact (IH Hn) |].
  constructor; [| exact (IH Hn)].
  intros Hin. apply in_map_iff in Hin as (c & Hac & Hc).
  apply filter_In in Hc as [Hc _].
  exact (wf_registry_tail_addr a next c Hwf Hc Hac).
Qed.

(** X14.  On a registry that satisfies the data-model invariant a sweep
    passes no address to [free] twice, and no Block that it keeps has
    its header freed. *)
Theorem gc_sweep_frees_once
    (sys_free_fill : list Event -> Z -> byte) (w : World) (evs : list Event) :
  wf_registry (heap_start w) = true ->
  trace (gc_sweep sys_free_fill w) = trace w ++ evs ->
  List.NoDup (freed_addresses evs) /\
  forall c, In c (heap_start (gc_sweep sys_free_fill w)) ->
            ~ In (addr c) (freed_addresses evs).
Proof.
  intros Hwf Htr. rewrite gc_sweep_trace in Htr.
  apply app_inv_head in Htr. subst evs.
  rewrite freed_addresses_sweep. split; [exact (freed_addresses_NoDup _ Hwf) |].
  intros c Hc Hfreed. rewrite gc_sweep_heap in Hc.
  apply in_map_iff in Hc as (c0 & <- & Hc0).
  apply filter_In in Hc0 as [Hc0 Hm0].
  apply in_map_iff in Hfreed as (d & Had & Hd).
  apply filter_In in Hd as [Hd Hmd].
  destruct (In_lookup _ c0 Hc0) as (i & Hi).
  destruct (In_lookup _ d Hd) as (k & Hk).
  assert (k = i).
  { apply (wf_registry_addr_inj (heap_start w) k i d c0 Hwf Hk Hi). exact Had. }
  subst k. assert (d = c0) by congruence. subst d.
  rewrite Hm0 in Hmd. discriminate.
Qed.

Lemma gc_sweep_frees_once_witness :
  List.NoDup (freed_addresses
                [Output 0; SysFree 2000; Output 12; SysFree 3000]).
Proof.
  destruct (gc_sweep_frees_once ex_fill ex_marked_world
              [Output 0; SysFree 2000; Output 12; SysFree 3000]) as [Hnd _].
  - reflexivity.
  - reflexivity.
  - exact Hnd.
Defined.

(** ** More on the collection cycle and the allocator *)

Lemma gc_collect_result fill fuel stack_top w w2 :
  gc_collect fill fuel stack_top w = Some w2 ->
  exists h',
    w2 = gc_sweep fill (with_heap h' w) /\
    mark_post (mem w)
      (candidates (mem w) (root_lo stack_top w) (root_hi stack_top w))
      (heap_start w) h'.
Proof.
  unfold gc_collect, gc_mark, root_lo, root_hi. rewrite Z.gtb_ltb.
  destruct (Z.ltb_spec (stack_bottom w) stack_top) as [Hlt | Hge].
  - rewrite Z.min_r, Z.max_l by lia.
    destruct (gc_mark_from_region fuel (mem w) (stack_bottom w) stack_top
                (heap_start w)) as [h' |] eqn:Hrun; [| discriminate].
    intros [= <-]. exists h'. split; [reflexivity |].
    exact (gc_mark_from_region_result _ _ _ _ _ _ Hrun).
  - rewrite Z.min_l, Z.max_r by lia.
    destruct (gc_mark_from_region fuel (mem w) stack_top (stack_bottom w)
                (heap_start w)) as [h' |] eqn:Hrun; [| discriminate].
    intros [= <-]. exists h'. split; [reflexivity |].
    exact (gc_mark_from_region_result _ _ _ _ _ _ Hrun).
Qed.

Lemma in_data_range_geometry p q a :
  addr q = addr p -> size q = size p -> in_data_range p a -> in_data_range q a.
Proof.
  intros Ha Hs. unfold in_data_range, obj_start. rewrite Ha, Hs. auto.
Qed.

(** A collection cycle leaves reachable Blocks alone: they stay in the
    registry, unchanged, and every byte of their data is as it was. *)
Lemma gc_sweep_after_mark_keeps
    (sys_free_fill : list Event -> Z -> byte)
    (fuel : nat) (stack_top : Z) (w w2 : World) (i : nat) (b : ObjectHeader) :
  wf_registry (heap_start w) = true ->
  all_unmarked (heap_start w) ->
  gc_collect sys_free_fill fuel stack_top w = Some w2 ->
  heap_start w !! i = Some b ->
  reachable (mem w) (heap_start w)
            (root_lo stack_top w) (root_hi stack_top w) i ->
  In b (heap_start w2) /\
  forall a, in_data_range b a -> mem w2 a = mem w a.
Proof.
  intros Hwf Hun Hcol Hb Hreach.
  destruct (gc_collect_result _ _ _ _ _ Hcol) as (h' & -> & Hpost).
  pose proof (marked_iff_reachable _ _ _ _ h' Hwf Hun Hpost) as Hiff.
  pose proof (post_extends _ _ _ _ Hpost) as [Hs _].
  assert (Hbm : marked b = false).
  { pose proof (all_unmarked_marked_at (heap_start w) i Hun) as H.
    rewrite (marked_at_lookup _ i b Hb) in H. exact H. }
  destruct (all_unmarked_shape_eq (heap_start w) h' i b Hs Hb Hbm)
    as (b' & Hb' & Ha & Hz & Hset).
  apply Hiff in Hreach. rewrite (marked_at_lookup h' i b' Hb') in Hreach.
  assert (Hwf' : wf_registry h' = true).
  { rewrite (wf_registry_shape h' (heap_start w) Hs). exact Hwf. }
  split.
  - rewrite gc_sweep_heap. simpl heap_start. rewrite <- Hset.
    apply in_map, filter_In. split; [exact (lookup_In h' i b' Hb') | exact Hreach].
  - intros a Hin. rewrite gc_sweep_mem; [reflexivity |].
    simpl heap_start. intros c Hc Hcm.
    destruct (In_lookup h' c Hc) as (k & Hk).
    assert (Hne : i <> k) by (intros ->; congruence).
    apply (data_outside_other_chunk b' c a).
    + exact (wf_registry_lookup h' i b' Hwf' Hb').
    + exact (wf_registry_lookup h' k c Hwf' Hk).
    + exact (wf_registry_distinct_apart h' i k b' c Hwf' Hne Hb' Hk).
    + exact (in_data_range_geometry b b' a Ha Hz Hin).
Qed.

Lemma ex_reachable :
  reachable (mem ex_world) (heap_start ex_world)
            (root_lo 4984 ex_world) (root_hi 4984 ex_world) 1.
Proof.
  apply (reach_root _ _ _ _ 4984 1%nat).
  - exists 0. vm_compute. repeat split; discriminate.
  - exists (mkHeader 1000 false 16). split; [reflexivity |].
    vm_compute. split; [discriminate | reflexivity].
Qed.

(** In [ex_world] the chunk handed out after the collection is fresh. *)
Lemma ex_retry_fresh w2 :
  gc_collect ex_fill 4 4984
    (emit (SysMalloc (total_size 32) (ex_malloc (trace ex_world) (total_size 32)))
          ex_world)
  = Some w2 ->
  ex_malloc (trace w2) (total_size 32) <> 0 ->
  fresh_chunk (ex_malloc (trace w2) (total_size 32)) 32 (heap_start w2) = true.
Proof.
  intros Hcol Hne.
  assert (Hh : option_map heap_start
                 (gc_collect ex_fill 4 4984
                    (emit (SysMalloc (total_size 32)
                             (ex_malloc (trace ex_world) (total_size 32)))
                          ex_world))
               = Some [mkHeader 1000 false 16]) by (vm_compute; reflexivity).
  rewrite Hcol in Hh. simpl in Hh. injection Hh as ->.
  unfold ex_malloc in *.
  destruct (existsb _ (trace w2)); [reflexivity |].
  exfalso. apply Hne. reflexivity.
Qed.

Lemma GC_malloc_inv sys_malloc fill fuel stack_top sz w p w' :
  GC_malloc sys_malloc fill fuel stack_top sz w = Some (p, w') ->
  let total := total_size sz in
  let r1 := sys_malloc (trace w) total in
  let w1 := emit (SysMalloc total r1) w in
  (r1 <> 0 /\ (p, w') = install r1 sz w1) \/
  (r1 = 0 /\
   exists w2,
     gc_collect fill fuel stack_top w1 = Some w2 /\
     let r2 := sys_malloc (trace w2) total in
     let w3 := emit (SysMalloc total r2) w2 in
     (p, w') = if r2 =? 0 then (0, w3) else install r2 sz w3).
Proof.
  intros Hrun total r1 w1. unfold GC_malloc, call_malloc in Hrun.
  fold total in Hrun. fold r1 in Hrun. fold w1 in Hrun.
  destruct (Z.eqb_spec r1 0) as [H0 | Hne].
  - right. split; [exact H0 |].
    destruct (gc_collect fill fuel stack_top w1) as [w2 |]; [| discriminate].
    exists w2. split; [reflexivity |]. cbv zeta.
    destruct (sys_malloc (trace w2) total =? 0); congruence.
  - left. split; [exact Hne | congruence].
Qed.

(** X15.  An allocation never takes a reachable Block away: on a
    registry that satisfies the data-model invariant and carries no
    mark, with every scanned word clear of the headers and a system
    allocator that hands out fresh chunks, a Block reachable from the
    Root Region at the time of the call is in the registry after
    [GC_malloc], unchanged, with every byte of its data as it was,
    whether a collection ran or not and whether the allocation
    succeeded or not. *)
Theorem GC_malloc_keeps_reachable
    (sys_malloc : list Event -> Z -> Z)
    (sys_free_fill : list Event -> Z -> byte)
    (fuel : nat) (stack_top : Z) (sz : Z) (w : World) (p : Z) (w' : World)
    (i : nat) (b : ObjectHeader) :
  wf_registry (heap_start w) = true ->
  scans_clear (heap_start w)
              (root_lo stack_top w) (root_hi stack_top w) = true ->
  all_unmarked (heap_start w) ->
  (sys_malloc (trace w) (total_size sz) <> 0 ->
   fresh_chunk (sys_malloc (trace w) (total_size sz)) sz (heap_start w) = true) ->
  (forall w2,
      gc_collect sys_free_fill fuel stack_top
        (emit (SysMalloc (total_size sz) (sys_malloc (trace w) (total_size sz))) w)
      = Some w2 ->
      sys_malloc (trace w2) (total_size sz) <> 0 ->
      fresh_chunk (sys_malloc (trace w2) (total_size sz)) sz (heap_start w2)
      = true) ->
  GC_malloc sys_malloc sys_free_fill fuel stack_top sz w = Some (p, w') ->
  heap_start w !! i = Some b ->
  reachable (mem w) (heap_start w)
            (root_lo stack_top w) (root_hi stack_top w) i ->
  In b (heap_start w') /\
  forall a, in_data_range b a -> mem w' a = mem w a.
Proof.
  intros Hwf _ Hun _ _ Hrun Hb Hreach.
  destruct (GC_malloc_inv _ _ _ _ _ _ _ _ Hrun)
    as [[_ Hres] | [_ (w2 & Hcol & Hres)]].
  - injection Hres as _ ->. simpl. split; [| reflexivity].
    right. exact (lookup_In _ i b Hb).
  - cbv zeta in Hres.
    destruct (gc_sweep_after_mark_keeps sys_free_fill fuel stack_top
                (emit (SysMalloc (total_size sz)
                         (sys_malloc (trace w) (total_size sz))) w)
                w2 i b Hwf Hun Hcol Hb Hreach) as [Hin Hmem].
    destruct (sys_malloc (trace w2) (total_size sz) =? 0).
    + injection Hres as _ ->. simpl. auto.
    + injection Hres as _ ->. simpl. auto.
Qed.

(** In [ex_world] the allocation runs a collection; the 16-byte Block,
    which the stack points to, is still there afterwards. *)
Lemma GC_malloc_keeps_reachable_witness :
  exists p w',
    GC_malloc ex_malloc ex_fill 4 4984 32 ex_world = Some (p, w') /\
    In (mkHeader 1000 false 16) (heap_start w').
Proof.
  destruct (GC_malloc ex_malloc ex_fill 4 4984 32 ex_world)
    as [[p w'] |] eqn:Hrun.
  - exists p, w'. split; [reflexivity |].
    destruct (GC_malloc_keeps_reachable ex_malloc ex_fill 4 4984 32 ex_world
                p w' 1 (mkHeader 1000 false 16)) as [Hin _].
    + reflexivity.
    + reflexivity.
    + repeat constructor.
    + intros Hne. exfalso. apply Hne. reflexivity.
    + exact ex_retry_fresh.
    + exact Hrun.
    + reflexivity.
    + exact ex_reachable.
    + exact Hin.
  - assert (H : option_map fst (GC_malloc ex_malloc ex_fill 4 4984 32 ex_world)
                = Some 7024) by (vm_compute; reflexivity).
    rewrite Hrun in H. discriminate H.
Defined.

(** X16.  Garbage is handed back before the retry: when the first
    [malloc] of [GC_malloc] fails on a registry that satisfies the
    data-model invariant and carries no mark, with every scanned word
    clear of the headers, the header of every Block that is not
    reachable from the Root Region has been freed in the history that
    the second [malloc] is asked with. *)
Theorem GC_malloc_retry_sees_frees
    (sys_malloc : list Event -> Z -> Z)
    (sys_free_fill : list Event -> Z -> byte)
    (fuel : nat) (stack_top : Z) (sz : Z) (w : World)
    (i : nat) (b : ObjectHeader) :
  wf_registry (heap_start w) = true ->
  scans_clear (heap_start w)
              (root_lo stack_top w) (root_hi stack_top w) = true ->
  all_unmarked (heap_start w) ->
  (length (heap_start w) < fuel)%nat ->
  sys_malloc (trace w) (total_size sz) = 0 ->
  heap_start w !! i = Some b ->
  ~ reachable (mem w) (heap_start w)
              (root_lo stack_top w) (root_hi stack_top w) i ->
  exists t2 p w',
    In (SysFree (addr b)) t2 /\
    GC_malloc sys_malloc sys_free_fill fuel stack_top sz w = Some (p, w') /\
    trace w' = t2 ++ [SysMalloc (total_size sz) (sys_malloc t2 (total_size sz))].
Proof.
  intros Hwf _ Hun Hfuel Hfail Hb Hnot.
  assert (Hc : (unmarked_count (heap_start w) < fuel)%nat).
  { pose proof (unmarked_count_le_length (heap_start w)). lia. }
  destruct (GC_malloc_cases sys_malloc sys_free_fill fuel stack_top sz w Hc)
    as [[Hne _] | [_ (w2 & Hcol & Hrun)]]; [contradiction |].
  cbv zeta in Hrun.
  destruct (gc_collect_result _ _ _ _ _ Hcol) as (h' & Hw2 & Hpost).
  pose proof (marked_iff_reachable _ _ _ _ h' Hwf Hun Hpost) as Hiff.
  pose proof (post_extends _ _ _ _ Hpost) as [Hs _].
  destruct (shape_lookup _ h' i b (eq_sym Hs) Hb) as (b' & Hb' & Ha & _).
  assert (Hm' : marked b' = false).
  { destruct (marked b') eqn:E; [| reflexivity]. exfalso. apply Hnot, Hiff.
    rewrite (marked_at_lookup h' i b' Hb'). exact E. }
  exists (trace w2).
  exists (if sys_malloc (trace w2) (total_size sz) =? 0 then 0
          else wrap (sys_malloc (trace w2) (total_size sz) + sizeof_ObjectHeader)).
  exists (snd (if sys_malloc (trace w2) (total_size sz) =? 0
               then (0, emit (SysMalloc (total_size sz)
                                (sys_malloc (trace w2) (total_size sz))) w2)
               else install (sys_malloc (trace w2) (total_size sz)) sz
                      (emit (SysMalloc (total_size sz)
                               (sys_malloc (trace w2) (total_size sz))) w2))).
  split; [| split].
  - rewrite Hw2, gc_sweep_trace. apply in_or_app. right. simpl heap_start.
    apply sweep_events_In. exists b'.
    split; [exact (lookup_In h' i b' Hb') |]. split; [exact Hm' |].
    right. congruence.
  - rewrite Hrun.
    destruct (sys_malloc (trace w2) (total_size sz) =? 0); reflexivity.
  - destruct (sys_malloc (trace w2) (total_size sz) =? 0); reflexivity.
Qed.

(** In [ex_world] the 12-byte Block at 3000 is not reachable: the only
    words that lead anywhere are the two stack words, which lead to the
    16-byte Block and to nothing, and the self-pointer of the 16-byte
    Block. *)
Lemma ex_unreachable :
  ~ reachable (mem ex_world) (heap_start ex_world)
              (root_lo 4984 ex_world) (root_hi 4984 ex_world) 2.
Proof.
  intros Hreach.
  assert (Hmark : exists h', gc_mark_from_region 4 ex_mem 4984 5000 ex_heap = Some h'
                             /\ marked_at h' 2 = false).
  { eexists. split; [vm_compute; reflexivity | reflexivity]. }
  destruct Hmark as (h' & Hrun & Hm).
  pose proof (gc_mark_from_region_result _ _ _ _ _ _ Hrun) as Hpost.
  assert (Hiff := marked_iff_reachable ex_mem ex_heap 4984 5000 h'
                    eq_refl ltac:(repeat constructor) Hpost 2%nat).
  apply Hiff in Hreach. rewrite Hm in Hreach. discriminate.
Qed.

Lemma GC_malloc_retry_sees_frees_witness :
  exists t2 p w',
    In (SysFree 3000) t2 /\
    GC_malloc ex_malloc ex_fill 4 4984 32 ex_world = Some (p, w') /\
    trace w' = t2 ++ [SysMalloc (total_size 32) (ex_malloc t2 (total_size 32))].
Proof.
  apply (GC_malloc_retry_sees_frees ex_malloc ex_fill 4 4984 32 ex_world 2
           (mkHeader 3000 false 12)).
  - reflexivity.
  - reflexivity.
  - repeat constructor.
  - simpl. lia.
  - reflexivity.
  - reflexivity.
  - exact ex_unreachable.
Defined.

(** X17.  An allocation that needs no collection does not disturb the
    lookup of older addresses: when the registry satisfies the
    data-model invariant and the first [malloc] hands out a fresh
    chunk, an address that the lookup led to position [i] leads to
    position [i + 1], the same Block one step further from the head. *)
Theorem GC_malloc_keeps_owners
    (sys_malloc : list Event -> Z -> Z)
    (sys_free_fill : list Event -> Z -> byte)
    (fuel : nat) (stack_top : Z) (sz : Z) (w : World) (ptr : Z) (i : nat) :
  wf_registry (heap_start w) = true ->
  sys_malloc (trace w) (total_size sz) <> 0 ->
  fresh_chunk (sys_malloc (trace w) (total_size sz)) sz (heap_start w) = true ->
  get_header_from_data_ptr (heap_start w) ptr = Some i ->
  exists p w',
    GC_malloc sys_malloc sys_free_fill fuel stack_top sz w = Some (p, w') /\
    heap_start w' !! S i = heap_start w !! i /\
    get_header_from_data_ptr (heap_start w') ptr = Some (S i).
Proof.
  intros Hwf Hne Hfresh Hfind.
  unfold GC_malloc, call_malloc.
  destruct (Z.eqb_spec (sys_malloc (trace w) (total_size sz)) 0) as [H0 | _];
    [contradiction |].
  eexists _, _. split; [reflexivity |]. simpl heap_start.
  split; [reflexivity |].
  set (new := mkHeader (sys_malloc (trace w) (total_size sz)) false sz) in *.
  unfold fresh_chunk in Hfresh. fold new in Hfresh.
  apply andb_true_iff in Hfresh as [Hwn Hap].
  rewrite forallb_forall in Hap.
  destruct (get_header_Some _ ptr i Hfind) as (q & Hq & Hcq).
  pose proof (wf_registry_lookup _ i q Hwf Hq) as Hwq.
  rewrite get_header_cons.
  destruct (contains new ptr) eqn:Hcn.
  - exfalso. apply (chunks_apart_ranges new q ptr Hwn Hwq).
    + apply Hap. exact (lookup_In _ i q Hq).
    + apply (wf_contains new ptr Hwn). exact Hcn.
    + apply (wf_contains q ptr Hwq). exact Hcq.
  - rewrite Hfind. reflexivity.
Qed.

Definition ex_malloc_ready (t : list Event) (n : Z) : Z := 7000.

Lemma GC_malloc_keeps_owners_witness :
  exists p w',
    GC_malloc ex_malloc_ready ex_fill 4 4984 32 ex_world = Some (p, w') /\
    heap_start w' !! 2%nat = heap_start ex_world !! 1%nat /\
    get_header_from_data_ptr (heap_start w') 1030 = Some 2%nat.
Proof.
  apply (GC_malloc_keeps_owners ex_malloc_ready ex_fill 4 4984 32 ex_world 1030 1).
  - reflexivity.
  - discriminate.
  - reflexivity.
  - reflexivity.
Defined.

(** X18.  A collection requested at the very stack position that
    [GC_init] recorded sees an empty Root Region: it returns whatever
    the recursion bound, and on a registry without marks it frees every
    Block and leaves the registry empty. *)
Theorem gc_collect_empty_root_region
    (sys_free_fill : list Event -> Z -> byte)
    (fuel : nat) (dummy : Z) (w : World) :
  all_unmarked (heap_start w) ->
  exists w',
    gc_collect sys_free_fill fuel dummy (GC_init dummy w) = Some w' /\
    heap_start w' = [] /\
    freed_addresses (trace w') = freed_addresses (trace w) ++ map addr (heap_start w).
Proof.
  intros Hun. unfold gc_collect, gc_mark. simpl stack_bottom.
  rewrite Z.gtb_ltb, Z.ltb_irrefl. unfold gc_mark_from_region.
  rewrite (trip_count_empty dummy dummy) by lia. simpl.
  eexists. split; [reflexivity |].
  destruct (filter_marked_none _ Hun) as [E1 E2].
  split.
  - rewrite gc_sweep_heap. simpl heap_start. rewrite E1. reflexivity.
  - rewrite gc_sweep_trace. simpl.
    unfold freed_addresses at 1. rewrite flat_map_app.
    fold (freed_addresses (trace w)).
    fold (freed_addresses (sweep_events (heap_start w))).
    rewrite freed_addresses_sweep, E2. reflexivity.
Qed.

Lemma gc_collect_empty_root_region_witness :
  exists w', gc_collect ex_fill 0 4984 (GC_init 4984 ex_world) = Some w' /\
             heap_start w' = [].
Proof.
  destruct (gc_collect_empty_root_region ex_fill 0 4984 ex_world)
    as (w' & Hrun & Hh & _).
  - repeat constructor.
  - exists w'. split; [exact Hrun | exact Hh].
Defined.

(** X19.  [GC_malloc] keeps the registry in order: when the registry
    satisfies the data-model invariant and carries no mark, and each
    chunk that the system allocator hands out is fresh (it holds a
    header and [sz] bytes inside the address space and overlaps no
    Block of the registry at the time of the call), the registry after
    [GC_malloc] satisfies the invariant and carries no mark, whichever
    way the call went. *)
Theorem GC_malloc_keeps_invariant
    (sys_malloc : list Event -> Z -> Z)
    (sys_free_fill : list Event -> Z -> byte)
    (fuel : nat) (stack_top : Z) (sz : Z) (w : World) (p : Z) (w' : World) :
  wf_registry (heap_start w) = true ->
  all_unmarked (heap_start w) ->
  (sys_malloc (trace w) (total_size sz) <> 0 ->
   fresh_chunk (sys_malloc (trace w) (total_size sz)) sz (heap_start w) = true) ->
  (forall w2,
      gc_collect sys_free_fill fuel stack_top
        (emit (SysMalloc (total_size sz) (sys_malloc (trace w) (total_size sz))) w)
      = Some w2 ->
      sys_malloc (trace w2) (total_size sz) <> 0 ->
      fresh_chunk (sys_malloc (trace w2) (total_size sz)) sz (heap_start w2)
      = true) ->
  GC_malloc sys_malloc sys_free_fill fuel stack_top sz w = Some (p, w') ->
  wf_registry (heap_start w') = true /\ all_unmarked (heap_start w').
Proof.
  intros Hwf Hun Hf1 Hf2 Hrun.
  destruct (GC_malloc_inv _ _ _ _ _ _ _ _ Hrun)
    as [[Hne Hres] | [_ (w2 & Hcol & Hres)]].
  - injection Hres as _ ->. simpl heap_start.
    specialize (Hf1 Hne). unfold fresh_chunk in Hf1. split.
    + simpl. rewrite Hf1, Hwf. reflexivity.
    + constructor; [reflexivity | exact Hun].
  - cbv zeta in Hres.
    destruct (gc_collect_result _ _ _ _ _ Hcol) as (h' & Hw2 & Hpost).
    pose proof (post_extends _ _ _ _ Hpost) as [Hs _]. simpl in Hs.
    assert (Hwf2 : wf_registry (heap_start w2) = true).
    { rewrite Hw2, gc_sweep_heap. apply wf_registry_sweep. simpl.
      rewrite (wf_registry_shape h' (heap_start w) Hs). exact Hwf. }
    assert (Hun2 : all_unmarked (heap_start w2)).
    { rewrite Hw2. apply all_unmarked_sweep. }
    destruct (Z.eqb_spec (sys_malloc (trace w2) (total_size sz)) 0) as [H2 | H2].
    + injection Hres as _ ->. simpl. auto.
    + injection Hres as _ ->. simpl heap_start.
      specialize (Hf2 w2 Hcol H2). unfold fresh_chunk in Hf2. split.
      * simpl. rewrite Hf2, Hwf2. reflexivity.
      * constructor; [reflexivity | exact Hun2].
Qed.

Lemma GC_malloc_keeps_invariant_witness :
  exists p w',
    GC_malloc ex_malloc ex_fill 4 4984 32 ex_world = Some (p, w') /\
    wf_registry (heap_start w') = true /\ all_unmarked (heap_start w').
Proof.
  destruct (GC_malloc ex_malloc ex_fill 4 4984 32 ex_world)
    as [[p w'] |] eqn:Hrun.
  - exists p, w'. split; [reflexivity |].
    apply (GC_malloc_keeps_invariant ex_malloc ex_fill 4 4984 32 ex_world p w').
    + reflexivity.
    + repeat constructor.
    + intros Hne. exfalso. apply Hne. reflexivity.
    + intros w2 Hcol Hne.
      assert (Hh : option_map heap_start
                     (gc_collect ex_fill 4 4984
                        (emit (SysMalloc (total_size 32)
                                 (ex_malloc (trace ex_world) (total_size 32)))
                              ex_world))
                   = Some [mkHeader 1000 false 16]) by (vm_compute; reflexivity).
      rewrite Hcol in Hh. simpl in Hh. injection Hh as ->.
      unfold ex_malloc in *.
      destruct (existsb _ (trace w2)); [reflexivity |].
      exfalso. apply Hne. reflexivity.
    + exact Hrun.
  - assert (H : option_map fst (GC_malloc ex_malloc ex_fill 4 4984 32 ex_world)
                = Some 7024) by (vm_compute; reflexivity).
    rewrite Hrun in H. discriminate H.
Defined.

(** ** The mark flag in memory *)

(** The source stores the flag at the address of the header
    ([header->marked = true] writes its first byte) and the scans read
    the memory as it then is.  The definitions below carry the memory
    along with the chain and write the flag into it; the node keeps the
    flag as well, and the test [header->marked] reads it there. *)

Definition store_byte (a : Z) (v : byte) (m : memory) : memory :=
  fun x => if x =? a then v else m x.

Fixpoint gc_mark_from_region_loop_stored
    (mark_object : Z -> registry * memory -> option (registry * memory))
    (n : nat) (p end_ : Z) (s : registry * memory)
  : option (registry * memory) :=
  match n with
  | O => Some s
  | S n' =>
      if p <? end_ then
        match mark_object (load_word s.2 p) s with
        | Some s' =>
            gc_mark_from_region_loop_stored mark_object n' (p + sizeof_ptr) end_ s'
        | None => None
        end
      else Some s
  end.

Fixpoint gc_mark_object_stored (fuel : nat) (ptr : Z) (s : registry * memory)
  : option (registry * memory) :=
  match fuel with
  | O => None
  | S fuel' =>
      if ptr =? 0 then Some s
      else
        match get_header_from_data_ptr s.1 ptr with
        | None => Some s
        | Some i =>
            match s.1 !! i with
            | None => Some s
            | Some header =>
                if marked header then Some s
                else
                  let s1 := (<[i := set_marked true header]> s.1,
                             store_byte (addr header) x01 s.2) in
                  gc_mark_from_region_loop_stored (gc_mark_object_stored fuel')
                    (trip_count (obj_start header) (obj_end header))
                    (obj_start header) (obj_end header) s1
            end
        end
  end.

Definition gc_mark_from_region_stored (fuel : nat) (start end_ : Z)
    (s : registry * memory) : option (registry * memory) :=
  gc_mark_from_region_loop_stored (gc_mark_object_stored fuel)
    (trip_count start end_) start end_ s.

(** [m'] is [m] up to the flag bytes of the headers of [h0]. *)
Definition flags_only (h0 : registry) (m m' : memory) : Prop :=
  forall a, (forall c, In c h0 -> a <> addr c) -> m' a = m a.

(** The run with the flag in memory does what the run on the nodes
    does. *)
Definition refines (h0 : registry) (m : memory)
    (r : option registry) (r' : option (registry * memory)) : Prop :=
  match r with
  | Some h' => exists m'', r' = Some (h', m'') /\ flags_only h0 m m''
  | None => r' = None
  end.

Lemma load_word_flags_only h0 m m' p :
  flags_only h0 m m' -> word_clear h0 p = true ->
  load_word m' p = load_word m p.
Proof.
  intros Hfl Hclear. unfold word_clear in Hclear.
  rewrite forallb_forall in Hclear.
  assert (Hb : forall i, 0 <= i < 8 -> m' (p + i) = m (p + i)).
  { intros i Hi. apply Hfl. intros c Hc Heq.
    specialize (Hclear c Hc). apply orb_true_iff in Hclear.
    rewrite !Z.leb_le in Hclear.
    unfold sizeof_ptr, sizeof_ObjectHeader in Hclear. lia. }
  unfold load_word, byte_at. simpl.
  rewrite (Hb 0), (Hb 1), (Hb 2), (Hb 3), (Hb 4), (Hb 5), (Hb 6), (Hb 7) by lia.
  reflexivity.
Qed.

Lemma gc_mark_from_region_loop_refines h0 m f g :
  (forall v h m', shape h = shape h0 -> flags_only h0 m m' ->
                  refines h0 m (f v h) (g v (h, m'))) ->
  (forall v h h', f v h = Some h' -> shape h' = shape h) ->
  forall n p end_ h m',
    shape h = shape h0 -> flags_only h0 m m' ->
    forallb (word_clear h0) (loop_positions n p end_) = true ->
    refines h0 m (gc_mark_from_region_loop f m n p end_ h)
            (gc_mark_from_region_loop_stored g n p end_ (h, m')).
Proof.
  intros Hfg Hshape.
  induction n as [| n IH]; intros p end_ h m' Hs Hfl Hclear; simpl.
  - exists m'. split; [reflexivity | exact Hfl].
  - simpl in Hclear. destruct (p <? end_).
    + simpl in Hclear. apply andb_true_iff in Hclear as [Hp Hrest].
      rewrite (load_word_flags_only h0 m m' p Hfl Hp).
      pose proof (Hfg (load_word m p) h m' Hs Hfl) as Hstep.
      unfold refines in Hstep.
      destruct (f (load_word m p) h) as [h1 |] eqn:Hf.
      * destruct Hstep as (m1 & -> & Hfl1).
        apply IH; [| exact Hfl1 | exact Hrest].
        rewrite (Hshape _ _ _ Hf). exact Hs.
      * rewrite Hstep. reflexivity.
    + exists m'. split; [reflexivity | exact Hfl].
Qed.

Lemma data_scans_clear_lookup h i c :
  data_scans_clear h = true -> h !! i = Some c ->
  scan_clear h (obj_start c) (obj_end c) = true.
Proof.
  unfold data_scans_clear. rewrite forallb_forall. intros H Hc.
  apply H. exact (lookup_In h i c Hc).
Qed.

(** When every word read from the data of a Block is clear of the
    headers, [gc_mark_object] with the flag written to memory marks the
    same Blocks, and changes the memory in flag bytes only. *)
Lemma gc_mark_object_stored_refines h0 m :
  data_scans_clear h0 = true ->
  forall fuel ptr h m',
    shape h = shape h0 -> flags_only h0 m m' ->
    refines h0 m (gc_mark_object fuel m ptr h)
            (gc_mark_object_stored fuel ptr (h, m')).
Proof.
  intros Hclear.
  induction fuel as [| fuel IH]; intros ptr h m' Hs Hfl; [reflexivity |].
  simpl gc_mark_object. simpl gc_mark_object_stored.
  destruct (ptr =? 0); [exists m'; auto |].
  destruct (get_header_from_data_ptr h ptr) as [i |]; [| exists m'; auto].
  destruct (h !! i) as [header |] eqn:Hi; [| exists m'; auto].
  destruct (marked header); [exists m'; auto |].
  destruct (shape_lookup h h0 i header Hs Hi) as (c0 & Hc0 & Ha & Hz).
  destruct (obj_bounds_geometry header c0 Ha Hz) as [E1 E2].
  apply gc_mark_from_region_loop_refines.
  - exact (fun v g g' => IH v g g').
  - intros v g g' Hrun.
    destruct (post_extends _ _ _ _ (gc_mark_object_result m fuel v g g' Hrun))
      as [Hsh _]. exact Hsh.
  - rewrite (shape_insert h i header); [exact Hs | exact Hi | reflexivity | reflexivity].
  - intros a Ha'. unfold store_byte.
    destruct (Z.eqb_spec a (addr header)) as [-> | _]; [| apply Hfl; exact Ha'].
    exfalso. apply (Ha' c0 (lookup_In h0 i c0 Hc0)). congruence.
  - fold (scanned (obj_start header) (obj_end header)).
    rewrite <- E1, <- E2.
    exact (data_scans_clear_lookup h0 i c0 Hclear Hc0).
Qed.

(** The same for the scan of a region, the Root Region in
    particular. *)
Lemma gc_mark_from_region_stored_refines fuel m start end_ h :
  scans_clear h start end_ = true ->
  refines h m (gc_mark_from_region fuel m start end_ h)
          (gc_mark_from_region_stored fuel start end_ (h, m)).
Proof.
  intros Hclear. unfold scans_clear in Hclear.
  apply andb_true_iff in Hclear as [Hroot Hdata].
  unfold gc_mark_from_region, gc_mark_from_region_stored.
  apply gc_mark_from_region_loop_refines.
  - intros v g m' Hs Hfl.
    exact (gc_mark_object_stored_refines h m Hdata fuel v g m' Hs Hfl).
  - intros v g g' Hrun.
    destruct (post_extends _ _ _ _ (gc_mark_object_result m fuel v g g' Hrun))
      as [Hsh _]. exact Hsh.
  - reflexivity.
  - intros a _. reflexivity.
  - exact Hroot.
Qed.

(** Headers at word-aligned addresses, as a system allocator hands them
    out, keep the scans of Block data clear of the headers. *)
Lemma aligned_data_scans_clear h :
  wf_registry h = true ->
  (forall c, In c h -> addr c mod sizeof_ptr = 0) ->
  data_scans_clear h = true.
Proof.
  intros Hwf Hal. unfold data_scans_clear. apply forallb_forall. intros b Hb.
  unfold scan_clear. apply forallb_forall. intros p Hp.
  apply scanned_region_word in Hp as (k & Hk & -> & Hlt).
  unfold word_clear. apply forallb_forall. intros c Hc.
  apply orb_true_iff. rewrite !Z.leb_le.
  destruct (In_lookup h b Hb) as (i & Hi).
  destruct (In_lookup h c Hc) as (j & Hj).
  destruct (wf_header_spec b (wf_registry_lookup h i b Hwf Hi))
    as (_ & _ & Sb & Eb & _).
  destruct (wf_header_spec c (wf_registry_lookup h j c Hwf Hj))
    as (_ & Hzc & _ & _ & _).
  rewrite Sb in *. rewrite Eb in Hlt.
  pose proof (Hal b Hb) as Hab. pose proof (Hal c Hc) as Hac.
  unfold sizeof_ptr, sizeof_ObjectHeader in *.
  pose proof (Z.div_mod (addr b) 8 ltac:(lia)) as Db.
  pose proof (Z.div_mod (addr c) 8 ltac:(lia)) as Dc.
  destruct (Nat.eq_dec i j) as [-> | Hne].
  - assert (c = b) by congruence. subst c. right. lia.
  - pose proof (wf_registry_distinct_apart h i j b c Hwf Hne Hi Hj) as Hap.
    unfold chunks_apart in Hap. apply orb_true_iff in Hap.
    rewrite !Z.leb_le in Hap. unfold sizeof_ObjectHeader in Hap.
    destruct Hap as [Hap | Hap]; [left | right]; lia.
Qed.
